(** * Batched entity loaders and cursor connections of the Sui GraphQL gateway

    A shallow embedding of [src/schema/epochs.ts] and of the loader and
    connection resolvers of [src/schema/index.ts], with the properties the
    specification states about them.

    Conventions.
    - A JavaScript promise is modelled by its settlement, [Settled]: the
      value it resolves to or the error it rejects with.
    - Calls to the upstream client ([suiClient]) are recorded: a computation
      of type [Rpc A] carries the list of upstream requests it issued, in
      order, next to its settlement.
    - JavaScript numbers that hold epoch numbers are modelled by
      [JS.number]: [NaN], [-Infinity] or an exact integer (doubles are exact
      on integers below 2^53, which epoch numbers are).
    - Strings are byte strings; [parseInt] skips ASCII white space.
    - The loop of [getEpochs] runs on fuel: it need not end when the
      upstream keeps announcing pages.
    - [getEpochs] is modelled twice: taken in one piece
      ([Epochs.getEpochs]), and run by run between its [await]s with other
      calls in flight on the same module variables ([Interleaved]); a call
      that runs alone is the same in both. *)

From Stdlib Require Import ZArith String Ascii List Bool Lia.
From stdpp Require Import base list strings.
Import ListNotations.

Local Open Scope string_scope.
Local Open Scope Z_scope.
Local Open Scope list_scope.

(* ===================================================================== *)
(** ** JavaScript values used by the code *)
(* ===================================================================== *)

Module JS.

(** The numbers [Number.parseInt] and [Math.max] produce in [getEpochs]. *)
Inductive number : Type :=
| NaN
| NegInf
| Num (z : Z).

(** [a > b]: false as soon as one side is [NaN]. *)
Definition gt (a b : number) : bool :=
  match a, b with
  | Num x, Num y => x >? y
  | Num _, NegInf => true
  | _, _ => false
  end.

(** [a < b]. *)
Definition lt (a b : number) : bool := gt b a.

(** [Math.max(a, b)]: [NaN] is absorbing, [-Infinity] is neutral. *)
Definition max2 (a b : number) : number :=
  match a, b with
  | NaN, _ | _, NaN => NaN
  | NegInf, x | x, NegInf => x
  | Num x, Num y => Num (Z.max x y)
  end.

(** [Math.max(...l)]: [-Infinity] on no argument. *)
Definition Math_max (l : list number) : number := fold_left max2 l NegInf.

Definition is_white (c : ascii) : bool :=
  let n := nat_of_ascii c in
  ((9 <=? n)%nat && (n <=? 13)%nat) || (n =? 32)%nat.

Definition digit (c : ascii) : option Z :=
  let n := Z.of_nat (nat_of_ascii c) in
  if ((48 <=? n) && (n <=? 57))%Z then Some (n - 48) else None.

Fixpoint skip_white (s : string) : string :=
  match s with
  | String c r => if is_white c then skip_white r else s
  | EmptyString => s
  end.

(** Value of the longest prefix of decimal digits, [None] when empty. *)
Fixpoint digits (s : string) (acc : option Z) : option Z :=
  match s with
  | String c r =>
      match digit c with
      | Some d => digits r (Some (10 * default 0 acc + d))
      | None => acc
      end
  | EmptyString => acc
  end.

(** [Number.parseInt(s, 10)]. *)
Definition parseInt (s : string) : number :=
  let s := skip_white s in
  let '(neg, s) :=
    match s with
    | String "-" r => (true, r)
    | String "+" r => (false, r)
    | _ => (false, s)
    end in
  match digits s None with
  | None => NaN
  | Some n => Num (if neg then - n else n)
  end.

(** Truthiness of [string | undefined] and of [number | undefined]. *)
Definition truthy_str (s : option string) : bool :=
  match s with
  | Some (String _ _) => true
  | _ => false
  end.

Definition truthy_int (n : option Z) : bool :=
  match n with
  | Some z => negb (z =? 0)
  | None => false
  end.

(** [s.split(',')]: never empty. *)
Fixpoint split_comma (s : string) : list string :=
  match s with
  | EmptyString => [EmptyString]
  | String c r =>
      if Ascii.eqb c "," then EmptyString :: split_comma r
      else match split_comma r with
           | h :: t => String c h :: t
           | [] => [String c EmptyString]
           end
  end.

End JS.

(* ===================================================================== *)
(** ** Promises and recorded upstream calls *)
(* ===================================================================== *)

(** The settlement of a promise. *)
Inductive Settled (A : Type) : Type :=
| Resolved (a : A)
| Rejected (err : string).
Arguments Resolved {A} a.
Arguments Rejected {A} err.

(** An element of a loader's result array: an entity or an [Error]. *)
Inductive Loaded (A : Type) : Type :=
| Entity (a : A)
| LoadError (msg : string).
Arguments Entity {A} a.
Arguments LoadError {A} msg.

(** [Promise.all]: resolves to all the values, rejects when one input
    rejects.  JavaScript rejects with the rejection that settles first in
    time, which the settlements alone do not tell; the leftmost one stands
    for it here, and no property below depends on which rejection is
    reported. *)
Fixpoint Promise_all {A} (ps : list (Settled A)) : Settled (list A) :=
  match ps with
  | [] => Resolved []
  | Rejected e :: _ => Rejected e
  | Resolved a :: rest =>
      match Promise_all rest with
      | Resolved l => Resolved (a :: l)
      | Rejected e => Rejected e
      end
  end.

(** [a.find(p) ?? new Error(msg)]. *)
Definition find_or_error {A} (p : A -> bool) (l : list A) (msg : string) : Loaded A :=
  match find p l with
  | Some a => Entity a
  | None => LoadError msg
  end.

(* ===================================================================== *)
(** ** The upstream client: entities, requests, responses *)
(* ===================================================================== *)

(** The fields of the upstream entities that the loaders and the cursor
    functions read, with one or two more to tell records apart. *)
Record Checkpoint : Type := {
  checkpoint_digest : string;
  sequenceNumber : string;
  timestampMs : string
}.

Record TransactionBlock : Type := {
  txb_digest : string;
  txb_checkpoint : option string
}.

Record EventId : Type := {
  txDigest : string;
  eventSeq : string
}.

Record SuiEvent : Type := {
  event_id : EventId;
  packageId : string;
  sender : string
}.

Record SuiObjectData : Type := {
  objectId : string;
  version : string;
  object_digest : string
}.

(** [multiGetObjects] answers one response per id; [data] is absent for an
    object the node does not have. *)
Record SuiObjectResponse : Type := {
  data : option SuiObjectData
}.

Record EpochInfo : Type := {
  epoch : string;
  firstCheckpointId : string;
  epochStartTimestamp : string
}.

Record SuiMoveNormalizedModule : Type := {
  address : string;
  name : string
}.

Record SuiMoveNormalizedFunction : Type := {
  visibility : string;
  isEntry : bool
}.

(** A page of an upstream list call. *)
Record Page (A : Type) : Type := {
  page_data : list A;
  nextCursor : option string;
  hasNextPage : bool
}.
Arguments page_data {A} _.
Arguments nextCursor {A} _.
Arguments hasNextPage {A} _.

Inductive Order : Type := ascending | descending.

Inductive TransactionFilter : Type :=
| FilterCheckpoint (digest : string)
| FromOrToAddress (addr : string)
| ToAddress (addr : string).

Record GetCheckpointsParams : Type := {
  descendingOrder : bool;
  gc_limit : Z;
  gc_cursor : option string
}.

Record QueryTransactionBlocksParams : Type := {
  qtb_filter : option TransactionFilter;
  qtb_limit : option Z;
  qtb_cursor : option string;
  qtb_order : option Order
}.

(** The query of [queryEvents] is always [{ All: [] }] in this code. *)
Record QueryEventsParams : Type := {
  qe_limit : Z;
  qe_cursor : option string;
  qe_order : option Order
}.

(** One request sent to the upstream client. *)
Inductive RpcCall : Type :=
| GetCheckpoint (id : string)
| GetCheckpoints (p : GetCheckpointsParams)
| QueryTransactionBlocks (p : QueryTransactionBlocksParams)
| QueryEvents (p : QueryEventsParams)
| MultiGetTransactionBlocks (digests : list string)
| MultiGetObjects (ids : list string)
| GetNormalizedMoveModule (package : string) (module : option string)
| GetNormalizedMoveFunction (package : string) (module fn : option string)
| GetEpochs (cursor : option string).

(** What the upstream answers to each request. *)
Record Upstream : Type := {
  getCheckpoint : string -> Settled Checkpoint;
  getCheckpoints : GetCheckpointsParams -> Settled (Page Checkpoint);
  queryTransactionBlocks :
    QueryTransactionBlocksParams -> Settled (Page TransactionBlock);
  queryEvents : QueryEventsParams -> Settled (Page SuiEvent);
  multiGetTransactionBlocks : list string -> Settled (list TransactionBlock);
  multiGetObjects : list string -> Settled (list SuiObjectResponse);
  getNormalizedMoveModule :
    string -> option string -> Settled SuiMoveNormalizedModule;
  getNormalizedMoveFunction :
    string -> option string -> option string -> Settled SuiMoveNormalizedFunction;
  getEpochs_rpc : option string -> Settled (Page EpochInfo)
}.

(** A computation that talks to the upstream: the requests it issued and
    how it settled. *)
Definition Rpc (A : Type) : Type := (list RpcCall * Settled A)%type.

Definition ret {A} (a : A) : Rpc A := ([], Resolved a).

Definition throw {A} (msg : string) : Rpc A := ([], Rejected msg).

(** [await] of one upstream request. *)
Definition call {A} (c : RpcCall) (answer : Settled A) : Rpc A := ([c], answer).

Definition bind {A B} (m : Rpc A) (f : A -> Rpc B) : Rpc B :=
  match m with
  | (l, Resolved a) => let '(l', r) := f a in (l ++ l', r)
  | (l, Rejected e) => (l, Rejected e)
  end.

Notation "'let*' x := m 'in' k" := (bind m (fun x => k))
  (at level 10, x name, m at level 100, k at level 200).

(** The requests a computation issued. *)
Definition issued {A} (m : Rpc A) : list RpcCall := fst m.

(** How it settled. *)
Definition settled {A} (m : Rpc A) : Settled A := snd m.

(** [Promise.all(l.map(async (x) => f x))]: every callback is started, in
    order, and the results are joined by [Promise_all]. *)
Definition all {A B} (f : A -> Rpc B) (l : list A) : Rpc (list B) :=
  (concat (map (fun x => issued (f x)) l),
   Promise_all (map (fun x => settled (f x)) l)).

(* ===================================================================== *)
(** ** [src/schema/epochs.ts] *)
(* ===================================================================== *)

Module Epochs.

(** The module-level variables [allEpochs], [latestEpoch], [epochCursor]. *)
Record State : Type := {
  allEpochs : list EpochInfo;
  latestEpoch : JS.number;
  epochCursor : option string
}.

(** Their values when the module is loaded. *)
Definition initial : State :=
  {| allEpochs := []; latestEpoch := JS.Num (-1); epochCursor := None |}.

(** The body of [page.data.forEach]. *)
Definition visit (st : State) (e : EpochInfo) : State :=
  {| allEpochs := allEpochs st ++ [e];
     latestEpoch := JS.max2 (latestEpoch st) (JS.parseInt (epoch e));
     epochCursor := epochCursor st |}.

(** One iteration of the loop once the page has arrived. *)
Definition absorb (st : State) (page : Page EpochInfo) : State :=
  fold_left visit (page_data page)
    {| allEpochs := allEpochs st;
       latestEpoch := latestEpoch st;
       epochCursor := nextCursor page |}.

(** The [while (max > latestEpoch)] loop.  [fuel] bounds the number of
    iterations; [None] means the bound was reached with the loop still
    running.  The result is the state left in the module variables, the
    requests issued, and whether the loop ended normally or by a rejected
    [await]. *)
Fixpoint scan (up : Upstream) (fuel : nat) (max : JS.number) (st : State)
  : option (State * Rpc unit) :=
  if JS.gt max (latestEpoch st) then
    match fuel with
    | O => None
    | S fuel' =>
        let c := GetEpochs (epochCursor st) in
        match getEpochs_rpc up (epochCursor st) with
        | Rejected e => Some (st, ([c], Rejected e))
        | Resolved page =>
            let st' := absorb st page in
            if hasNextPage page then
              match scan up fuel' max st' with
              | Some (st'', (l, r)) => Some (st'', (c :: l, r))
              | None => None
              end
            else Some (st', ([c], Resolved tt))
        end
    end
  else Some (st, ([], Resolved tt)).

(** The final [keys.map]. *)
Definition lookup_keys (st : State) (keys : list string) : list (Loaded EpochInfo) :=
  map (fun key =>
         find_or_error (fun e => String.eqb (epoch e) key) (allEpochs st)
           "Epoch not found")
      keys.

(** The call taken in one piece: from its invocation to its settlement
    no other call touches the module variables.  [Interleaved] follows
    the calls in flight together. *)
Definition getEpochs (up : Upstream) (fuel : nat) (keys : list string) (st : State)
  : option (State * Rpc (list (Loaded EpochInfo))) :=
  let max := JS.Math_max (map JS.parseInt keys) in
  match scan up fuel max st with
  | None => None
  | Some (st', (l, Rejected e)) => Some (st', (l, Rejected e))
  | Some (st', (l, Resolved _)) => Some (st', (l, Resolved (lookup_keys st' keys)))
  end.

End Epochs.

(* ===================================================================== *)
(** ** The relay helper [resolveCursorConnection] *)
(* ===================================================================== *)

(** The connection helper of the relay plugin the schema is built with.
    It is a dependency, not part of the source tree; the resolvers reach
    it through [resolveCursorConnection] only. *)
Module Relay.

Record ConnectionArgs : Type := {
  first : option Z;
  after : option string;
  last : option Z;
  before : option string
}.

Record ResolveCursorConnectionArgs : Type := {
  rc_before : option string;
  rc_after : option string;
  inverted : bool;
  limit : Z
}.

Record Edge (N : Type) : Type := {
  cursor : string;
  node : N
}.
Arguments cursor {N} _.
Arguments node {N} _.

Record PageInfo : Type := {
  startCursor : string;
  endCursor : string;
  hasPreviousPage : bool;
  pi_hasNextPage : bool
}.

Record Connection (N : Type) : Type := {
  edges : list (Edge N);
  pageInfo : PageInfo
}.
Arguments edges {N} _.
Arguments pageInfo {N} _.

Definition DEFAULT_SIZE : Z := 20.
Definition DEFAULT_MAX_SIZE : Z := 100.

Definition is_negative (n : option Z) : bool :=
  match n with
  | Some z => z <? 0
  | None => false
  end.

(** [a ?? b]. *)
Definition orElse {A} (a b : option A) : option A :=
  match a with
  | Some _ => a
  | None => b
  end.

(** Modelled from the spec: the argument handling of [paginate]
    (section 4.2), missing from the source tree.  The page size defaults
    to 20 and is capped; the callback is asked for one item more than the
    page holds, which is how [hasNextPage] is known although the callbacks
    return the items only.  [before] and [after] are handed on as they
    are: the callbacks are the ones that test [before]. *)
Definition parseCursorArgs (args : ConnectionArgs)
  : Settled ResolveCursorConnectionArgs :=
  if is_negative (first args) then
    Rejected "Argument first must be a non-negative integer"
  else if is_negative (last args) then
    Rejected "Argument last must be a non-negative integer"
  else
    let size := default DEFAULT_SIZE (orElse (first args) (last args)) in
    let no_first := negb (JS.truthy_int (first args)) in
    Resolved
      {| rc_before := before args;
         rc_after := after args;
         limit := Z.min size DEFAULT_MAX_SIZE + 1;
         inverted :=
           if JS.truthy_str (after args)
           then JS.truthy_int (last args) && no_first
           else (JS.truthy_str (before args) && no_first)
                || (no_first && JS.truthy_int (last args)) |}.

(** Modelled from the spec: [paginate] (section 4.2), missing from the
    source tree.  The callback is called once; the items it returns, cut
    to the page size, become edges through [toCursor]; [endCursor] is the
    cursor of the last edge. *)
Definition resolveCursorConnection {N} (args : ConnectionArgs)
    (toCursor : N -> string)
    (resolve : ResolveCursorConnectionArgs -> Rpc (list N))
  : Rpc (Connection N) :=
  match parseCursorArgs args with
  | Rejected e => throw e
  | Resolved a =>
      let* nodes := resolve a in
      let full := Z.of_nat (length nodes) >=? limit a in
      let trimmed := take (Z.to_nat (limit a - 1)) nodes in
      let trimmed := if inverted a then rev trimmed else trimmed in
      let es := map (fun v => {| cursor := toCursor v; node := v |}) trimmed in
      ret {| edges := es;
             pageInfo :=
               {| startCursor :=
                    match es with
                    | e :: _ => cursor e
                    | [] => default "" (orElse (after args) (before args))
                    end;
                  endCursor :=
                    match List.last (map Some es) None with
                    | Some e => cursor e
                    | None => default "" (orElse (before args) (after args))
                    end;
                  hasPreviousPage :=
                    if inverted a then full else JS.truthy_str (after args);
                  pi_hasNextPage :=
                    if inverted a then JS.truthy_str (before args) else full |} |}
  end.

End Relay.

(* ===================================================================== *)
(** ** [src/schema/index.ts]: loaders *)
(* ===================================================================== *)

Module Schema.
Import Relay.

(** [Checkpoint.load]: one [getCheckpoint] per key, joined by
    [Promise.all]. *)
Definition Checkpoint_load (up : Upstream) (keys : list string)
  : Rpc (list Checkpoint) :=
  all (fun id => call (GetCheckpoint id) (getCheckpoint up id)) keys.


(** [TransactionBlock.load]. *)
Definition TransactionBlock_load (up : Upstream) (keys : list string)
  : Rpc (list (Loaded TransactionBlock)) :=
  let* result :=
    call (MultiGetTransactionBlocks keys) (multiGetTransactionBlocks up keys) in
  ret (map (fun digest =>
              find_or_error (fun txb => String.eqb (txb_digest txb) digest) result
                ("TransactionBlock " +:+ digest +:+ " not found"))
           keys).

(** The node a [NormalizedFunction] key loads: [{ ...result, id: key }]. *)
Record NormalizedFunctionNode : Type := {
  fn_result : SuiMoveNormalizedFunction;
  fn_id : string
}.

(** [NormalizedFunction.load]: one [getNormalizedMoveFunction] per key. *)
Definition NormalizedFunction_load (up : Upstream) (keys : list string)
  : Rpc (list NormalizedFunctionNode) :=
  all (fun key =>
         let parts := JS.split_comma key in
         let pkg := default "" (parts !! 0%nat) in
         let moduleName := parts !! 1%nat in
         let fn := parts !! 2%nat in
         let* result :=
           call (GetNormalizedMoveFunction pkg moduleName fn)
                (getNormalizedMoveFunction up pkg moduleName fn) in
         ret {| fn_result := result; fn_id := key |})
      keys.

(** [MoveModule.load]: one [getNormalizedMoveModule] per key. *)
Definition MoveModule_load (up : Upstream) (keys : list string)
  : Rpc (list SuiMoveNormalizedModule) :=
  all (fun key =>
         let package := default "" (JS.split_comma key !! 0%nat) in
         let module := JS.split_comma key !! 1%nat in
         let* result :=
           call (GetNormalizedMoveModule package module)
                (getNormalizedMoveModule up package module) in
         ret result)
      keys.

(** [obj?.objectId === id]. *)
Definition has_objectId (id : string) (obj : option SuiObjectData) : bool :=
  match obj with
  | Some d => String.eqb (objectId d) id
  | None => false
  end.

(** [ObjectRef.load]. *)
Definition Object_load (up : Upstream) (keys : list string)
  : Rpc (list (Loaded SuiObjectData)) :=
  let* responses := call (MultiGetObjects keys) (multiGetObjects up keys) in
  let result := map data responses in
  ret (map (fun id =>
              match find (has_objectId id) result with
              | Some (Some d) => Entity d
              | _ => LoadError ("Object " +:+ id +:+ " not found")
              end)
           keys).

(* ===================================================================== *)
(** ** [src/schema/index.ts]: connection resolvers *)
(* ===================================================================== *)

Definition BACKWARDS : string := "backwards pagination not implemented".

(** ** Cursor functions ([toCursor]) *)

Definition Checkpoint_toCursor (d : Checkpoint) : string := sequenceNumber d.

Definition TransactionBlock_toCursor (d : TransactionBlock) : string := txb_digest d.

Definition Event_toCursor (d : SuiEvent) : string :=
  eventSeq (event_id d) +:+ "," +:+ txDigest (event_id d).

Definition Object_toCursor (d : SuiObjectData) : string := objectId d.

(** ** Fetch callbacks *)

(** [Query.checkpointConnection] and [Epoch.checkpointsConnection] share
    this callback. *)
Definition checkpoints_fetch (up : Upstream) (a : ResolveCursorConnectionArgs)
  : Rpc (list Checkpoint) :=
  if JS.truthy_str (rc_before a) then throw BACKWARDS
  else
    let p := {| descendingOrder := negb (inverted a);
                gc_limit := limit a;
                gc_cursor := rc_after a |} in
    let* page := call (GetCheckpoints p) (getCheckpoints up p) in
    ret (page_data page).

(** The callback of the transaction-block connections; they differ by the
    filter only: none for [Query.transactionBlockConnection] and
    [Epoch.transactionBlocksConnection], the checkpoint for
    [Checkpoint.transactionsConnection], the address for
    [Address.transactionBlockConnection]. *)
Definition transactionBlocks_fetch (up : Upstream)
    (filter : option TransactionFilter) (a : ResolveCursorConnectionArgs)
  : Rpc (list TransactionBlock) :=
  if JS.truthy_str (rc_before a) then throw BACKWARDS
  else
    let p := {| qtb_filter := filter;
                qtb_limit := Some (limit a);
                qtb_cursor := rc_after a;
                qtb_order := Some (if inverted a then descending else ascending) |} in
    let* page := call (QueryTransactionBlocks p) (queryTransactionBlocks up p) in
    ret (page_data page).

(** [Query.eventConnection]: cursor and order are commented out in the
    request. *)
Definition events_fetch (up : Upstream) (a : ResolveCursorConnectionArgs)
  : Rpc (list SuiEvent) :=
  if JS.truthy_str (rc_before a) then throw BACKWARDS
  else
    let p := {| qe_limit := limit a; qe_cursor := None; qe_order := None |} in
    let* page := call (QueryEvents p) (queryEvents up p) in
    ret (page_data page).

(** [Object.receivedTransactionBlockConnection]: the callback takes no
    argument. *)
Definition receivedTransactionBlocks_fetch (up : Upstream) (obj : SuiObjectData)
    (_ : ResolveCursorConnectionArgs) : Rpc (list TransactionBlock) :=
  let p := {| qtb_filter := Some (ToAddress (objectId obj));
              qtb_limit := None;
              qtb_cursor := None;
              qtb_order := None |} in
  let* results := call (QueryTransactionBlocks p) (queryTransactionBlocks up p) in
  ret (page_data results).

(** ** Resolvers *)

Definition checkpointConnection (up : Upstream) (args : ConnectionArgs)
  : Rpc (Connection Checkpoint) :=
  resolveCursorConnection args Checkpoint_toCursor (checkpoints_fetch up).

Definition transactionBlockConnection (up : Upstream) (args : ConnectionArgs)
  : Rpc (Connection TransactionBlock) :=
  resolveCursorConnection args TransactionBlock_toCursor
    (transactionBlocks_fetch up None).

Definition eventConnection (up : Upstream) (args : ConnectionArgs)
  : Rpc (Connection SuiEvent) :=
  resolveCursorConnection args Event_toCursor (events_fetch up).

Definition Checkpoint_transactionsConnection (up : Upstream)
    (checkpoint : Checkpoint) (args : ConnectionArgs)
  : Rpc (Connection TransactionBlock) :=
  resolveCursorConnection args TransactionBlock_toCursor
    (transactionBlocks_fetch up (Some (FilterCheckpoint (checkpoint_digest checkpoint)))).

Definition Epoch_checkpointsConnection (up : Upstream) (_ : EpochInfo)
    (args : ConnectionArgs) : Rpc (Connection Checkpoint) :=
  resolveCursorConnection args Checkpoint_toCursor (checkpoints_fetch up).

Definition Epoch_transactionBlocksConnection (up : Upstream) (_ : EpochInfo)
    (args : ConnectionArgs) : Rpc (Connection TransactionBlock) :=
  resolveCursorConnection args TransactionBlock_toCursor
    (transactionBlocks_fetch up None).

Definition Address_transactionBlockConnection (up : Upstream) (addr : string)
    (args : ConnectionArgs) : Rpc (Connection TransactionBlock) :=
  resolveCursorConnection args TransactionBlock_toCursor
    (transactionBlocks_fetch up (Some (FromOrToAddress addr))).

Definition receivedTransactionBlockConnection (up : Upstream)
    (obj : SuiObjectData) (args : ConnectionArgs)
  : Rpc (Connection TransactionBlock) :=
  resolveCursorConnection args TransactionBlock_toCursor
    (receivedTransactionBlocks_fetch up obj).

End Schema.

(* ===================================================================== *)
(** ** An upstream that pages through a fixed list *)
(* ===================================================================== *)

Module Dataset.

(** What is left of [l] after the element whose cursor is [c]. *)
Fixpoint after_cursor {A} (toCursor : A -> string) (c : string) (l : list A) : list A :=
  match l with
  | [] => []
  | x :: rest => if String.eqb (toCursor x) c then rest else after_cursor toCursor c rest
  end.

(** A page of at most [n] items of [l] read after cursor [c]. *)
Definition pageOf {A} (toCursor : A -> string) (l : list A) (c : option string)
    (n : Z) : Page A :=
  let rest := match c with Some c => after_cursor toCursor c l | None => l end in
  let items := take (Z.to_nat n) rest in
  {| page_data := items;
     nextCursor := option_map toCursor (last items);
     hasNextPage := (Z.to_nat n <? length rest)%nat |}.

(** The items of [l] a reader at cursor [c] has still to see. *)
Definition start {A} (toCursor : A -> string) (l : list A) (c : option string)
  : list A :=
  match c with
  | Some c => after_cursor toCursor c l
  | None => l
  end.

(** An upstream that serves the transaction blocks [txs], the
    checkpoints [cps] and the events [evs] page by page, in list order
    when asked for ascending order (or none) and in reverse when asked for
    descending order. *)
Definition serving (txs : list TransactionBlock) (cps : list Checkpoint)
    (evs : list SuiEvent) : Upstream :=
  {| getCheckpoint := fun _ => Rejected "not served";
     getCheckpoints := fun p =>
       Resolved (pageOf sequenceNumber
                   (if descendingOrder p then rev cps else cps)
                   (gc_cursor p) (gc_limit p));
     queryTransactionBlocks := fun p =>
       Resolved (pageOf txb_digest
                   (match qtb_order p with Some descending => rev txs | _ => txs end)
                   (qtb_cursor p) (default 50 (qtb_limit p)));
     queryEvents := fun p =>
       Resolved (pageOf (fun e => eventSeq (event_id e) +:+ "," +:+ txDigest (event_id e))
                   (match qe_order p with Some descending => rev evs | _ => evs end)
                   (qe_cursor p) (qe_limit p));
     multiGetTransactionBlocks := fun _ => Rejected "not served";
     multiGetObjects := fun _ => Rejected "not served";
     getNormalizedMoveModule := fun _ _ => Rejected "not served";
     getNormalizedMoveFunction := fun _ _ _ => Rejected "not served";
     getEpochs_rpc := fun _ => Rejected "not served" |}.

End Dataset.

(* ===================================================================== *)
(** ** Concrete upstreams used in the examples *)
(* ===================================================================== *)

Module Fixtures.
Import Dataset.

Definition down : string := "upstream unavailable".

(** An upstream that answers nothing. *)
Definition silent : Upstream :=
  {| getCheckpoint := fun _ => Rejected down;
     getCheckpoints := fun _ => Rejected down;
     queryTransactionBlocks := fun _ => Rejected down;
     queryEvents := fun _ => Rejected down;
     multiGetTransactionBlocks := fun _ => Rejected down;
     multiGetObjects := fun _ => Rejected down;
     getNormalizedMoveModule := fun _ _ => Rejected down;
     getNormalizedMoveFunction := fun _ _ _ => Rejected down;
     getEpochs_rpc := fun _ => Rejected down |}.

Definition mkEpoch (n : string) : EpochInfo :=
  {| epoch := n; firstCheckpointId := n +:+ "00"; epochStartTimestamp := "0" |}.

(** Nine epochs served three per page; the cursor is the last epoch of
    the previous page. *)
Definition epochPages (c : option string) : Settled (Page EpochInfo) :=
  match c with
  | None =>
      Resolved {| page_data := map mkEpoch ["0"; "1"; "2"];
                  nextCursor := Some "2"; hasNextPage := true |}
  | Some "2" =>
      Resolved {| page_data := map mkEpoch ["3"; "4"; "5"];
                  nextCursor := Some "5"; hasNextPage := true |}
  | Some "5" =>
      Resolved {| page_data := map mkEpoch ["6"; "7"; "8"];
                  nextCursor := Some "8"; hasNextPage := false |}
  | Some c => Resolved {| page_data := []; nextCursor := Some c; hasNextPage := false |}
  end.

Definition withEpochs : Upstream :=
  {| getCheckpoint := getCheckpoint silent;
     getCheckpoints := getCheckpoints silent;
     queryTransactionBlocks := queryTransactionBlocks silent;
     queryEvents := queryEvents silent;
     multiGetTransactionBlocks := multiGetTransactionBlocks silent;
     multiGetObjects := multiGetObjects silent;
     getNormalizedMoveModule := getNormalizedMoveModule silent;
     getNormalizedMoveFunction := getNormalizedMoveFunction silent;
     getEpochs_rpc := epochPages |}.

Definition mkCheckpoint (d seq : string) : Checkpoint :=
  {| checkpoint_digest := d; sequenceNumber := seq; timestampMs := "0" |}.

Definition mkObject (i : string) : SuiObjectData :=
  {| objectId := i; version := "1"; object_digest := "d" +:+ i |}.

Definition mkTxb (d : string) : TransactionBlock :=
  {| txb_digest := d; txb_checkpoint := None |}.

Definition mkEvent (seq tx : string) : SuiEvent :=
  {| event_id := {| txDigest := tx; eventSeq := seq |};
     packageId := "0x2"; sender := "0x1" |}.

(** The node knows "A" and "C" only. *)
Definition known (k : string) : bool := String.eqb k "A" || String.eqb k "C".

Definition threeEvents : list SuiEvent :=
  [mkEvent "0" "T0"; mkEvent "1" "T0"; mkEvent "0" "T1"].

(** An upstream that holds checkpoints, objects and transaction blocks
    "A" and "C", the three events above and the nine epochs; batch calls
    answer in reverse order of the request. *)
Definition sample : Upstream :=
  {| getCheckpoint := fun k =>
       if known k then Resolved (mkCheckpoint k "7")
       else Rejected "Checkpoint not found";
     getCheckpoints := fun _ => Rejected down;
     queryTransactionBlocks := fun p =>
       Resolved {| page_data := [mkTxb "A"; mkTxb "C"];
                   nextCursor := Some "C"; hasNextPage := false |};
     queryEvents := fun p =>
       Resolved (pageOf (fun e => eventSeq (event_id e) +:+ "," +:+ txDigest (event_id e))
                   threeEvents (qe_cursor p) (qe_limit p));
     multiGetTransactionBlocks := fun ks =>
       Resolved (map mkTxb (rev (filter (fun k => Is_true (known k)) ks)));
     multiGetObjects := fun ks =>
       Resolved (map (fun k => {| data := if known k then Some (mkObject k) else None |})
                   (rev ks));
     getNormalizedMoveModule := fun _ _ => Rejected down;
     getNormalizedMoveFunction := fun _ _ _ => Rejected down;
     getEpochs_rpc := epochPages |}.

End Fixtures.

(* ===================================================================== *)
(** ** Conversions between strings and integers *)
(* ===================================================================== *)

Module Convert.

(** The character of a decimal digit. *)
Definition digit_char (d : Z) : ascii := ascii_of_nat (Z.to_nat (48 + d)).

(** The decimal digits of [n], most significant first, in front of
    [acc]; [fuel] bounds the number of digits. *)
Fixpoint decimal (fuel : nat) (n : Z) (acc : string) : string :=
  match fuel with
  | O => acc
  | S fuel' =>
      let acc' := String (digit_char (n mod 10)) acc in
      if n / 10 =? 0 then acc' else decimal fuel' (n / 10) acc'
  end.

Definition String_of_nonneg (n : Z) : string :=
  decimal (S (Z.to_nat (Z.log2 n))) n "".

(** [String(n)] and [n.toString()] for an integer [n]. *)
Definition String_of_int (z : Z) : string :=
  if z <? 0 then String "-" (String_of_nonneg (- z)) else String_of_nonneg z.

(** A value that may be [undefined] or [null]. *)
Inductive Optional (A : Type) : Type :=
| Undefined
| Null
| Given (a : A).
Arguments Undefined {A}.
Arguments Null {A}.
Arguments Given {A} a.

(** [String(x)] for an optional integer. *)
Definition String_of_optional_int (x : Optional Z) : string :=
  match x with
  | Undefined => "undefined"
  | Null => "null"
  | Given z => String_of_int z
  end.

(** The value of a digit in a radix up to 16, [None] for another
    character. *)
Definition digit_in (radix : Z) (c : ascii) : option Z :=
  let n := Z.of_nat (nat_of_ascii c) in
  let v :=
    if (48 <=? n) && (n <=? 57) then Some (n - 48)
    else if (97 <=? n) && (n <=? 102) then Some (n - 87)
    else if (65 <=? n) && (n <=? 70) then Some (n - 55)
    else None in
  match v with
  | Some d => if d <? radix then Some d else None
  | None => None
  end.

(** The value of a string made of digits of the radix only. *)
Fixpoint radix_digits (radix : Z) (s : string) (acc : Z) : option Z :=
  match s with
  | EmptyString => Some acc
  | String c r =>
      match digit_in radix c with
      | Some d => radix_digits radix r (radix * acc + d)
      | None => None
      end
  end.

(** At least one digit. *)
Definition numeral (radix : Z) (s : string) : option Z :=
  match s with
  | EmptyString => None
  | _ => radix_digits radix s 0
  end.

(** White space removed at the end. *)
Fixpoint trim_end (s : string) : string :=
  match s with
  | EmptyString => EmptyString
  | String c r =>
      match trim_end r with
      | EmptyString => if JS.is_white c then EmptyString else String c EmptyString
      | r' => String c r'
      end
  end.

Definition trim (s : string) : string := trim_end (JS.skip_white s).

(** The radix a [0x], [0o] or [0b] prefix announces. *)
Definition prefix_radix (c : ascii) : option Z :=
  if Ascii.eqb c "x" || Ascii.eqb c "X" then Some 16
  else if Ascii.eqb c "o" || Ascii.eqb c "O" then Some 8
  else if Ascii.eqb c "b" || Ascii.eqb c "B" then Some 2
  else None.

(** A numeral after the white space is trimmed: a prefixed hexadecimal,
    octal or binary numeral without sign, or a decimal numeral with an
    optional sign. *)
Definition integer_literal (s : string) : option Z :=
  match s with
  | String c1 (String c2 r) =>
      match (if Ascii.eqb c1 "0" then prefix_radix c2 else None) with
      | Some radix => numeral radix r
      | None =>
          if Ascii.eqb c1 "-" then option_map Z.opp (numeral 10 (String c2 r))
          else if Ascii.eqb c1 "+" then numeral 10 (String c2 r)
          else numeral 10 s
      end
  | _ => numeral 10 s
  end.

(** [BigInt(s)] for a string: the integer, or [None] for the
    [SyntaxError].  The empty and the blank string give zero. *)
Definition BigInt_of_string (s : string) : option Z :=
  match trim s with
  | EmptyString => Some 0
  | t => integer_literal t
  end.

End Convert.

(* ===================================================================== *)
(** ** [src/schema/index.ts]: field resolvers *)
(* ===================================================================== *)

Module Fields.
Import Convert Schema.

(** A synchronous resolver returns or throws. *)
Inductive Outcome (A : Type) : Type :=
| Returned (a : A)
| Thrown (msg : string).
Arguments Returned {A} a.
Arguments Thrown {A} msg.

(** ** Epochs *)

(** [Query.epoch]: the key handed to the Epoch loader. *)
Definition Query_epoch (epochId : Optional Z) : string :=
  String_of_optional_int epochId.

(** [Epoch.epochId]. *)
Definition Epoch_epochId (e : EpochInfo) : JS.number := JS.parseInt (epoch e).

(** ** Move modules and functions *)

(** The id of a [MoveModule] node. *)
Definition MoveModule_id (m : SuiMoveNormalizedModule) : string :=
  address m +:+ "," +:+ name m.

Record MoveCall : Type := {
  mc_package : string;
  mc_module : string;
  mc_function : string
}.

(** [MoveCallTransaction.function]: the key handed to the
    NormalizedFunction loader. *)
Definition MoveCallTransaction_function (tx : MoveCall) : string :=
  mc_package tx +:+ "," +:+ mc_module tx +:+ "," +:+ mc_function tx.

Record MoveModuleId : Type := {
  mid_package : string;
  mid_name : option string
}.

(** [NormalizedFunction.moduleId]. *)
Definition NormalizedFunction_moduleId (fn : NormalizedFunctionNode) : MoveModuleId :=
  {| mid_package := default "" (JS.split_comma (fn_id fn) !! 0%nat);
     mid_name := JS.split_comma (fn_id fn) !! 1%nat |}.

(** ** Validators *)

Record SuiValidatorSummary : Type := {
  suiAddress : string;
  pendingStake : string;
  nextEpochStake : string;
  votingPower : string
}.

(** [BigInt(s)] as an expression. *)
Definition to_BigInt (s : string) : Outcome Z :=
  match BigInt_of_string s with
  | Some z => Returned z
  | None => Thrown ("Cannot convert " +:+ s +:+ " to a BigInt")
  end.

(** The [reduce] of [ValidatorSet.totalStake] from the sum so far. *)
Fixpoint totalStake_from (sum : Z) (validators : list SuiValidatorSummary)
  : Outcome Z :=
  match validators with
  | [] => Returned sum
  | v :: rest =>
      match to_BigInt (pendingStake v) with
      | Returned z => totalStake_from (sum + z) rest
      | Thrown e => Thrown e
      end
  end.

(** [ValidatorSet.totalStake]. *)
Definition ValidatorSet_totalStake (validators : list SuiValidatorSummary)
  : Outcome Z :=
  totalStake_from 0 validators.

(** [nextEpochStake && BigInt(nextEpochStake) > 0n]. *)
Definition has_next_stake (v : SuiValidatorSummary) : Outcome bool :=
  match nextEpochStake v with
  | EmptyString => Returned false
  | s =>
      match to_BigInt s with
      | Returned z => Returned (0 <? z)
      | Thrown e => Thrown e
      end
  end.

(** The [forEach] of [ValidatorSet.pendingRemovals] from index [i], with
    the indices pushed so far. *)
Fixpoint pendingRemovals_from (i : nat) (removals : list nat)
    (validators : list SuiValidatorSummary) : Outcome (list nat) :=
  match validators with
  | [] => Returned removals
  | v :: rest =>
      match has_next_stake v with
      | Returned true => pendingRemovals_from (S i) removals rest
      | Returned false => pendingRemovals_from (S i) (removals ++ [i]) rest
      | Thrown e => Thrown e
      end
  end.

(** [ValidatorSet.pendingRemovals]. *)
Definition ValidatorSet_pendingRemovals (validators : list SuiValidatorSummary)
  : Outcome (list nat) :=
  pendingRemovals_from 0 [] validators.

(** ** Protocol configuration *)

(** A configuration value: an object with one property, such as
    [{ u64: "128" }]. *)
Record ProtocolConfigValue : Type := {
  pcv_type : string;
  pcv_text : string
}.

(** The upstream's protocol configuration; [attributes] lists the own
    properties of the object in enumeration order, [None] for [null]. *)
Record ProtocolConfigResponse : Type := {
  protocolVersion : string;
  attributes : list (string * option ProtocolConfigValue)
}.

Record ProtocolConfigEntry : Type := {
  pc_key : string;
  pc_value : string
}.

(** [String(Object.values(value)[0])]. *)
Definition first_value (v : ProtocolConfigValue) : string := pcv_text v.

(** [ProtocolConfigs.configs]. *)
Definition ProtocolConfigs_configs (pc : ProtocolConfigResponse)
  : list ProtocolConfigEntry :=
  omap (fun kv =>
          match snd kv with
          | Some v => Some {| pc_key := fst kv; pc_value := first_value v |}
          | None => None
          end)
       (attributes pc).

(** The properties every object inherits from [Object.prototype]. *)
Definition Object_prototype : list string :=
  ["constructor"; "__defineGetter__"; "__defineSetter__"; "hasOwnProperty";
   "__lookupGetter__"; "__lookupSetter__"; "isPrototypeOf";
   "propertyIsEnumerable"; "toString"; "valueOf"; "__proto__";
   "toLocaleString"].

Definition inherited (key : string) : bool :=
  existsb (String.eqb key) Object_prototype.

(** The own property [key] of the attributes. *)
Definition own_attribute (pc : ProtocolConfigResponse) (key : string)
  : option (option ProtocolConfigValue) :=
  option_map snd (find (fun kv => String.eqb (fst kv) key) (attributes pc)).

(** [ProtocolConfigs.config]: [attributes[key]] is the own property, or
    else what [Object.prototype] has under that name: a function or
    object without enumerable properties, whose first value is
    [undefined]. *)
Definition ProtocolConfigs_config (pc : ProtocolConfigResponse) (key : string)
  : option ProtocolConfigEntry :=
  match own_attribute pc key with
  | Some (Some v) => Some {| pc_key := key; pc_value := first_value v |}
  | Some None => None
  | None =>
      if inherited key then Some {| pc_key := key; pc_value := "undefined" |}
      else None
  end.

(** ** Transaction arguments *)

Inductive SuiArgument : Type :=
| GasCoin
| Input (ix : Z)
| Result (cmd : Z)
| NestedResult (cmd ix : Z).

(** The nodes of the [TransactionArgument] union. *)
Inductive TransactionArgumentNode : Type :=
| GasCoinNode
| InputNode (ix : Z)
| ResultNode (ix : Z) (cmd : option Z).

(** [mapTransactionArgument]; the final [throw] is not reached by a
    value of the argument's type. *)
Definition mapTransactionArgument (arg : SuiArgument) : TransactionArgumentNode :=
  match arg with
  | GasCoin => GasCoinNode
  | Input n => InputNode n
  | Result n => ResultNode n None
  | NestedResult a b => ResultNode a (Some b)
  end.

End Fields.

(* ===================================================================== *)
(** ** Facts about JavaScript numbers *)
(* ===================================================================== *)

Module JSFacts.
Import JS.

Lemma max2_comm (a b : number) : max2 a b = max2 b a.
Proof. destruct a, b; simpl; try reflexivity. f_equal; lia. Qed.

Lemma max2_assoc (a b c : number) : max2 a (max2 b c) = max2 (max2 a b) c.
Proof. destruct a, b, c; simpl; try reflexivity. f_equal; lia. Qed.

Lemma max2_idem (a : number) : max2 a a = a.
Proof. destruct a; simpl; try reflexivity. f_equal; lia. Qed.

Lemma max2_NaN_r (a : number) : max2 a NaN = NaN.
Proof. destruct a; reflexivity. Qed.

(** Folding [Math.max] from [a] yields something above [a]. *)
Lemma fold_max2_above (l : list number) (a : number) :
  fold_left max2 l a = max2 a (fold_left max2 l a).
Proof.
  revert a. induction l as [|x l IH]; intros a; simpl.
  - symmetry. apply max2_idem.
  - rewrite (IH (max2 a x)) at 2.
    rewrite max2_assoc, (max2_assoc a a x), max2_idem.
    rewrite <- IH. reflexivity.
Qed.

Lemma fold_max2_NaN (l : list number) : fold_left max2 l NaN = NaN.
Proof. induction l as [|x l IH]; simpl; [reflexivity | exact IH]. Qed.

(** [Math.max] of arguments one of which is [NaN] is [NaN]. *)
Lemma Math_max_NaN (l : list number) : In NaN l -> Math_max l = NaN.
Proof.
  unfold Math_max. generalize NegInf.
  induction l as [|x l IH]; intros a Hin; simpl.
  - destruct Hin.
  - destruct Hin as [-> | Hin].
    + rewrite max2_NaN_r. apply fold_max2_NaN.
    + apply IH, Hin.
Qed.

Lemma gt_NaN_l (b : number) : gt NaN b = false.
Proof. reflexivity. Qed.

Lemma gt_NegInf_l (b : number) : gt NegInf b = false.
Proof. reflexivity. Qed.

(** When [b] is [Math.max(a, b)], [b < a] is false. *)
Lemma lt_above (a b : number) : b = max2 a b -> lt b a = false.
Proof.
  destruct a, b; simpl; intros H; try reflexivity; try discriminate.
  injection H as H. unfold lt, gt. lia.
Qed.

Lemma gt_Num (x y : Z) : gt (Num x) (Num y) = false <-> (x <= y)%Z.
Proof. unfold gt. lia. Qed.

End JSFacts.

(* ===================================================================== *)
(** ** Facts about the epoch accumulator *)
(* ===================================================================== *)

Module EpochsFacts.
Import JS Epochs JSFacts.

Lemma visit_fold_allEpochs (l : list EpochInfo) (st : State) :
  allEpochs (fold_left visit l st) = allEpochs st ++ l.
Proof.
  revert st. induction l as [|e l IH]; intros st; simpl.
  - by rewrite app_nil_r.
  - rewrite IH. simpl. by rewrite <- app_assoc.
Qed.

Lemma visit_fold_cursor (l : list EpochInfo) (st : State) :
  epochCursor (fold_left visit l st) = epochCursor st.
Proof.
  revert st. induction l as [|e l IH]; intros st; simpl; [done|].
  by rewrite IH.
Qed.

Lemma visit_fold_latest (l : list EpochInfo) (st : State) :
  latestEpoch (fold_left visit l st)
  = fold_left max2 (map (fun e => parseInt (epoch e)) l) (latestEpoch st).
Proof.
  revert st. induction l as [|e l IH]; intros st; simpl; [done|].
  by rewrite IH.
Qed.

Lemma absorb_allEpochs (st : State) (p : Page EpochInfo) :
  allEpochs (absorb st p) = allEpochs st ++ page_data p.
Proof. unfold absorb. by rewrite visit_fold_allEpochs. Qed.

Lemma absorb_cursor (st : State) (p : Page EpochInfo) :
  epochCursor (absorb st p) = nextCursor p.
Proof. unfold absorb. by rewrite visit_fold_cursor. Qed.

Lemma absorb_latest (st : State) (p : Page EpochInfo) :
  latestEpoch (absorb st p)
  = fold_left max2 (map (fun e => parseInt (epoch e)) (page_data p)) (latestEpoch st).
Proof. unfold absorb. by rewrite visit_fold_latest. Qed.

(** *** The accumulator only grows *)

(** [grows st st']: [st'] keeps every entry of [st], in place, and its
    watermark is [Math.max] of both watermarks. *)
Definition grows (st st' : State) : Prop :=
  (exists more, allEpochs st' = allEpochs st ++ more)
  /\ latestEpoch st' = max2 (latestEpoch st) (latestEpoch st').

Lemma grows_refl (st : State) : grows st st.
Proof.
  split.
  - exists []. by rewrite app_nil_r.
  - symmetry. apply max2_idem.
Qed.

Lemma grows_trans (a b c : State) : grows a b -> grows b c -> grows a c.
Proof.
  intros [[m1 H1] L1] [[m2 H2] L2]. split.
  - exists (m1 ++ m2). by rewrite H2, H1, app_assoc.
  - rewrite L2 at 2. rewrite max2_assoc, <- L1. exact L2.
Qed.

Lemma absorb_grows (st : State) (p : Page EpochInfo) : grows st (absorb st p).
Proof.
  split.
  - exists (page_data p). apply absorb_allEpochs.
  - rewrite absorb_latest. apply fold_max2_above.
Qed.

(** What every absorbed page preserves, a scan preserves. *)
Lemma scan_invariant (P : State -> Prop) (up : Upstream) (fuel : nat)
    (max : number) (st st' : State) (out : Rpc unit) :
  (forall s p, P s -> P (absorb s p)) ->
  P st -> scan up fuel max st = Some (st', out) -> P st'.
Proof.
  intros Hstep. revert st st' out.
  induction fuel as [|fuel IH]; intros st st' out Hst; simpl.
  - destruct (gt max (latestEpoch st)); intros H; [discriminate|].
    by injection H as <- _.
  - destruct (gt max (latestEpoch st)).
    2:{ intros H. by injection H as <- _. }
    destruct (getEpochs_rpc up (epochCursor st)) as [page|e].
    2:{ intros H. by injection H as <- _. }
    destruct (hasNextPage page).
    + destruct (scan up fuel max (absorb st page)) as [[st2 [l r]]|] eqn:E;
        intros H; [|discriminate].
      injection H as <- _. eapply IH; [|exact E]. by apply Hstep.
    + intros H. injection H as <- _. by apply Hstep.
Qed.

Lemma scan_grows (up : Upstream) (fuel : nat) (max : number) (st st' : State)
    (out : Rpc unit) :
  scan up fuel max st = Some (st', out) -> grows st st'.
Proof.
  apply (scan_invariant (grows st)); [|apply grows_refl].
  intros s p Hs. eapply grows_trans; [exact Hs | apply absorb_grows].
Qed.

Lemma getEpochs_grows (up : Upstream) (fuel : nat) (keys : list string)
    (st st' : State) (out : Rpc (list (Loaded EpochInfo))) :
  getEpochs up fuel keys st = Some (st', out) -> grows st st'.
Proof.
  unfold getEpochs.
  destruct (scan up fuel _ st) as [[st2 [l [[]|e]]]|] eqn:E; intros H;
    [| |discriminate]; injection H as <- _; eapply scan_grows, E.
Qed.

(** [later st st']: [st'] is what the module variables hold after some
    sequence of [getEpochs] calls started from [st]; each call may face a
    different upstream. *)
Inductive later : State -> State -> Prop :=
| later_now (st : State) : later st st
| later_call (up : Upstream) (fuel : nat) (keys : list string)
    (st st1 st2 : State) (out : Rpc (list (Loaded EpochInfo))) :
    getEpochs up fuel keys st = Some (st1, out) ->
    later st1 st2 ->
    later st st2.

Lemma later_grows (st st' : State) : later st st' -> grows st st'.
Proof.
  induction 1 as [st | up fuel keys st st1 st2 out Hcall _ IH].
  - apply grows_refl.
  - eapply grows_trans; [eapply getEpochs_grows, Hcall | exact IH].
Qed.

Lemma find_app_Some {A} (p : A -> bool) (l more : list A) (x : A) :
  find p l = Some x -> find p (l ++ more) = Some x.
Proof.
  induction l as [|a l IH]; simpl; [discriminate|].
  destruct (p a); [done | exact IH].
Qed.

Lemma find_is_Some {A} (p : A -> bool) (l : list A) (x : A) :
  In x l -> p x = true -> exists y, find p l = Some y.
Proof.
  induction l as [|a l IH]; simpl; [tauto|].
  intros [-> | Hin] Hp.
  - rewrite Hp. eauto.
  - destruct (p a); eauto.
Qed.


(** *** The watermark is the highest epoch number accumulated *)

(** [Math.max] of [-1] and the numbers of the records of [l]. *)
Definition watermark_of (l : list EpochInfo) : number :=
  fold_left max2 (map (fun e => parseInt (epoch e)) l) (Num (-1)).

Definition consistent (st : State) : Prop :=
  latestEpoch st = watermark_of (allEpochs st).

Lemma initial_consistent : consistent initial.
Proof. reflexivity. Qed.

Lemma absorb_consistent (st : State) (p : Page EpochInfo) :
  consistent st -> consistent (absorb st p).
Proof.
  unfold consistent, watermark_of. intros H.
  by rewrite absorb_latest, absorb_allEpochs, map_app, fold_left_app, H.
Qed.

Lemma getEpochs_consistent (up : Upstream) (fuel : nat) (keys : list string)
    (st st' : State) (out : Rpc (list (Loaded EpochInfo))) :
  consistent st -> getEpochs up fuel keys st = Some (st', out) -> consistent st'.
Proof.
  intros Hst. unfold getEpochs.
  destruct (scan up fuel _ st) as [[st2 [l [[]|e]]]|] eqn:E; intros H;
    [| |discriminate]; injection H as <- _;
    exact (scan_invariant consistent _ _ _ _ _ _ absorb_consistent Hst E).
Qed.

(** *** The pages one call fetches *)

(** [served up c ps]: [ps] are the pages the upstream serves, one after
    the other, to a reader that starts at cursor [c] and continues with
    each page's [nextCursor]. *)
Fixpoint served (up : Upstream) (c : option string) (ps : list (Page EpochInfo))
  : Prop :=
  match ps with
  | [] => True
  | p :: rest => getEpochs_rpc up c = Resolved p /\ served up (nextCursor p) rest
  end.

(** The requests that read [ps] from cursor [c]. *)
Fixpoint requests (c : option string) (ps : list (Page EpochInfo)) : list RpcCall :=
  match ps with
  | [] => []
  | p :: rest => GetEpochs c :: requests (nextCursor p) rest
  end.



(** A call whose highest requested epoch is not above the watermark
    fetches nothing and leaves the module variables as they are. *)
Lemma getEpochs_covered (up : Upstream) (fuel : nat) (keys : list string)
    (st : State) :
  gt (Math_max (map parseInt keys)) (latestEpoch st) = false ->
  getEpochs up fuel keys st = Some (st, ([], Resolved (lookup_keys st keys))).
Proof.
  intros H. unfold getEpochs.
  destruct fuel; simpl; by rewrite H.
Qed.

(** The list a call resolves to is the final [keys.map] over the state
    the call leaves. *)
Lemma getEpochs_resolved (up : Upstream) (fuel : nat) (keys : list string)
    (st st' : State) (l : list RpcCall) (res : list (Loaded EpochInfo)) :
  getEpochs up fuel keys st = Some (st', (l, Resolved res)) ->
  res = lookup_keys st' keys
  /\ scan up fuel (Math_max (map parseInt keys)) st = Some (st', (l, Resolved tt)).
Proof.
  unfold getEpochs.
  destruct (scan up fuel _ st) as [[st2 [l2 [[]|e]]]|] eqn:E;
    intros H; try discriminate.
  injection H as <- <- <-. split; reflexivity.
Qed.


Lemma find_None_intro {A} (p : A -> bool) (l : list A) :
  (forall x, In x l -> p x = false) -> find p l = None.
Proof.
  induction l as [|a l IH]; simpl; [done|].
  intros H. rewrite (H a) by auto. apply IH. auto.
Qed.

Lemma lookup_keys_lookup (st : State) (keys : list string) (i : nat) (key : string) :
  keys !! i = Some key ->
  lookup_keys st keys !! i
  = Some (find_or_error (fun e => String.eqb (epoch e) key) (allEpochs st)
            "Epoch not found").
Proof.
  intros H. unfold lookup_keys. by rewrite list_lookup_fmap, H.
Qed.

(** C9. Over any sequence of [getEpochs] calls the accumulated list is only
    extended at its end, the watermark is [Math.max] of what it was and what
    it is (so it never compares below its former value), and a request for
    the number of an accumulated epoch keeps being answered with the record
    it was answered with before. *)
Theorem accumulator_only_grows (st st' : State) :
  later st st' ->
  (exists more, allEpochs st' = allEpochs st ++ more)
  /\ latestEpoch st' = max2 (latestEpoch st) (latestEpoch st')
  /\ lt (latestEpoch st') (latestEpoch st) = false
  /\ (forall e, In e (allEpochs st) ->
      forall up fuel keys st'' l res i,
        getEpochs up fuel keys st' = Some (st'', (l, Resolved res)) ->
        keys !! i = Some (epoch e) ->
        exists e', res !! i = Some (Entity e')
                   /\ epoch e' = epoch e
                   /\ find (fun x => String.eqb (epoch x) (epoch e)) (allEpochs st)
                      = Some e').
Proof.
  intros Hl. pose proof (later_grows _ _ Hl) as [[more Hmore] Hmax].
  split; [eauto|]. split; [exact Hmax|]. split; [by apply lt_above|].
  intros e Hin up fuel keys st'' l res i Hcall Hkey.
  destruct (find_is_Some (fun x => String.eqb (epoch x) (epoch e)) _ e Hin)
    as [e' He']; [apply String.eqb_refl|].
  exists e'. split; [|split; [|exact He']].
  - pose proof (getEpochs_grows _ _ _ _ _ _ Hcall) as [[more2 Hmore2] _].
    unfold getEpochs in Hcall.
    destruct (scan up fuel _ st') as [[st2 [l2 [[]|err]]]|];
      try discriminate.
    injection Hcall as -> _ <-.
    rewrite (lookup_keys_lookup _ _ _ _ Hkey). unfold find_or_error.
    rewrite Hmore2, Hmore.
    by rewrite (find_app_Some _ _ more2 e'
                  (find_app_Some _ _ more e' He')).
  - apply find_some in He' as [_ He']. by apply String.eqb_eq in He'.
Qed.

(** C10. When the key list is empty, or holds a key that [parseInt] turns
    into [NaN], the loop body never runs: nothing is fetched, the module
    variables are unchanged, and every key that no accumulated record
    carries is answered by the not-found error, whatever the upstream
    holds and whatever the other keys are. *)
Theorem getEpochs_unparsable_key (up : Upstream) (fuel : nat) (keys : list string)
    (st : State) :
  keys = [] \/ (exists k, In k keys /\ parseInt k = NaN) ->
  getEpochs up fuel keys st = Some (st, ([], Resolved (lookup_keys st keys)))
  /\ forall i key,
       keys !! i = Some key ->
       (forall e, In e (allEpochs st) -> epoch e <> key) ->
       lookup_keys st keys !! i = Some (LoadError "Epoch not found").
Proof.
  intros H. split.
  - apply getEpochs_covered.
    destruct H as [-> | [k [Hin Hk]]]; [reflexivity|].
    rewrite Math_max_NaN; [reflexivity|].
    rewrite <- Hk. by apply in_map.
  - intros i key Hkey Habsent.
    rewrite (lookup_keys_lookup _ _ _ _ Hkey). unfold find_or_error.
    rewrite find_None_intro; [reflexivity|].
    intros e He. apply String.eqb_neq. by apply Habsent.
Qed.

End EpochsFacts.

(* ===================================================================== *)
(** ** Facts about the loaders *)
(* ===================================================================== *)

Module LoaderFacts.
Import JS Relay Schema EpochsFacts.








(** *** The loaders that call the upstream once per key *)

Lemma Promise_all_rejected {A} (ps : list (Settled A)) (e : string) :
  In (Rejected e) ps -> exists e', Promise_all ps = Rejected e'.
Proof.
  induction ps as [|[a|e0] ps IH]; simpl; [tauto| |eauto].
  intros [H | H]; [discriminate|].
  destruct (IH H) as [e' ->]. eauto.
Qed.

(** [Promise.all] resolves only when every input does, and then to the
    values in order: it has no per-item errors. *)
Lemma Promise_all_resolved {A} (ps : list (Settled A)) (l : list A) :
  Promise_all ps = Resolved l -> ps = map Resolved l.
Proof.
  revert l. induction ps as [|[a|e0] ps IH]; intros l; simpl.
  - by intros [= <-].
  - destruct (Promise_all ps) as [l'|]; [|discriminate].
    intros [= <-]. simpl. by rewrite (IH l').
  - discriminate.
Qed.

(** One awaited request followed by a pure continuation issues that
    request, however it settles. *)
Lemma issued_call_then {A B} (c : RpcCall) (answer : Settled A) (f : A -> B) :
  issued (let* x := call c answer in ret (f x)) = [c].
Proof. destruct answer; reflexivity. Qed.

Lemma issued_all_singletons {A B} (f : A -> Rpc B) (g : A -> RpcCall) (l : list A) :
  (forall x, issued (f x) = [g x]) -> issued (all f l) = map g l.
Proof.
  intros H. unfold all, issued at 1. simpl.
  induction l as [|x l IH]; simpl; [reflexivity|].
  by rewrite H, IH.
Qed.

Lemma Checkpoint_load_issued (up : Upstream) (keys : list string) :
  issued (Checkpoint_load up keys) = map GetCheckpoint keys.
Proof. apply issued_all_singletons. reflexivity. Qed.

(** The request [MoveModule.load] sends for a key. *)
Definition MoveModule_request (key : string) : RpcCall :=
  GetNormalizedMoveModule (default "" (split_comma key !! 0%nat))
                          (split_comma key !! 1%nat).

(** The request [NormalizedFunction.load] sends for a key. *)
Definition NormalizedFunction_request (key : string) : RpcCall :=
  GetNormalizedMoveFunction (default "" (split_comma key !! 0%nat))
                            (split_comma key !! 1%nat)
                            (split_comma key !! 2%nat).

(** C1, at the Checkpoint loader.  A key whose [getCheckpoint] is refused
    makes the whole batch reject: all the requests are sent, and no key of
    the batch gets an answer. *)
Theorem Checkpoint_load_missing_key_rejects_batch (up : Upstream)
    (keys : list string) (k e : string) :
  In k keys ->
  getCheckpoint up k = Rejected e ->
  issued (Checkpoint_load up keys) = map GetCheckpoint keys
  /\ exists e', settled (Checkpoint_load up keys) = Rejected e'.
Proof.
  intros Hin Hk. split; [apply Checkpoint_load_issued|].
  unfold Checkpoint_load, all, settled. simpl.
  apply (Promise_all_rejected _ e).
  rewrite <- Hk. apply (in_map (fun x => getCheckpoint up x)), Hin.
Qed.

(** C5, as the code has it.  The TransactionBlock and Object loaders send
    one request that carries the keys of the batch as they were handed
    over; the Checkpoint, MoveModule and NormalizedFunction loaders send
    one request per key, in key order, so a batch without duplicates asks
    for each checkpoint once. *)
Theorem loaders_upstream_requests (up : Upstream) (keys : list string) :
  issued (TransactionBlock_load up keys) = [MultiGetTransactionBlocks keys]
  /\ issued (Object_load up keys) = [MultiGetObjects keys]
  /\ issued (Checkpoint_load up keys) = map GetCheckpoint keys
  /\ issued (MoveModule_load up keys) = map MoveModule_request keys
  /\ issued (NormalizedFunction_load up keys) = map NormalizedFunction_request keys
  /\ (NoDup keys -> NoDup (issued (Checkpoint_load up keys))).
Proof.
  repeat split.
  - unfold TransactionBlock_load. apply issued_call_then.
  - unfold Object_load, call, bind, issued.
    destruct (multiGetObjects up keys); reflexivity.
  - apply Checkpoint_load_issued.
  - apply issued_all_singletons. intros key. apply issued_call_then.
  - apply issued_all_singletons. intros key.
    apply (issued_call_then _ _ (fun r => {| fn_result := r; fn_id := key |})).
  - intros Hnd. rewrite Checkpoint_load_issued.
    apply NoDup_fmap_2; [|exact Hnd]. intros x y [= ->]. reflexivity.
Qed.

End LoaderFacts.

(* ===================================================================== *)
(** ** Facts about the connection resolvers *)
(* ===================================================================== *)

Module ConnectionFacts.
Import JS Relay Schema.

(** The iteration order a request asks the upstream for, when it asks for
    one. *)
Definition direction_of (c : RpcCall) : option Order :=
  match c with
  | GetCheckpoints p => Some (if descendingOrder p then descending else ascending)
  | QueryTransactionBlocks p => qtb_order p
  | QueryEvents p => qe_order p
  | _ => None
  end.

(** The cursor a request hands to the upstream. *)
Definition cursor_of (c : RpcCall) : option string :=
  match c with
  | GetCheckpoints p => gc_cursor p
  | QueryTransactionBlocks p => qtb_cursor p
  | QueryEvents p => qe_cursor p
  | GetEpochs c => c
  | _ => None
  end.

(** Forward arguments: [first] and [after] only. *)
Definition forward (n : nat) (c : option string) : ConnectionArgs :=
  {| first := Some (Z.of_nat n); after := c; last := None; before := None |}.

(** Arguments with a [before] cursor next to [first]. *)
Definition backward (n : option nat) (c : string) : ConnectionArgs :=
  {| first := option_map Z.of_nat n; after := None; last := None; before := Some c |}.

(** The edges and the [hasNextPage] flag a resolver answers with. *)
Definition page_of {N} (m : Rpc (Connection N)) : Settled (list (Edge N) * bool) :=
  match settled m with
  | Resolved conn => Resolved (edges conn, pi_hasNextPage (pageInfo conn))
  | Rejected e => Rejected e
  end.

Lemma parse_forward (n : nat) (c : option string) :
  parseCursorArgs (forward n c)
  = Resolved {| rc_before := None; rc_after := c; inverted := false;
                limit := Z.min (Z.of_nat n) DEFAULT_MAX_SIZE + 1 |}.
Proof.
  unfold parseCursorArgs, forward. simpl.
  destruct (Z.ltb_spec (Z.of_nat n) 0) as [E|E]; [lia|].
  destruct (truthy_str c); simpl; [reflexivity|].
  by rewrite andb_false_r.
Qed.

Lemma parse_backward (n : option nat) (c : string) :
  exists a, parseCursorArgs (backward n c) = Resolved a /\ rc_before a = Some c.
Proof.
  unfold parseCursorArgs, backward. simpl.
  destruct n as [n|]; simpl; [|eauto].
  destruct (Z.ltb_spec (Z.of_nat n) 0) as [E|E]; [lia|]. eauto.
Qed.

(** The helper hands the callback's failure on and adds no request. *)
Lemma resolveCursorConnection_throw {N} (args : ConnectionArgs)
    (toCursor : N -> string)
    (resolve : ResolveCursorConnectionArgs -> Rpc (list N))
    (a : ResolveCursorConnectionArgs) (msg : string) :
  parseCursorArgs args = Resolved a ->
  resolve a = throw msg ->
  resolveCursorConnection args toCursor resolve = throw msg.
Proof.
  intros Hp Hr. unfold resolveCursorConnection. by rewrite Hp, Hr.
Qed.

(** The helper issues what the callback issues. *)
Lemma resolveCursorConnection_issued {N} (args : ConnectionArgs)
    (toCursor : N -> string)
    (resolve : ResolveCursorConnectionArgs -> Rpc (list N))
    (a : ResolveCursorConnectionArgs) :
  parseCursorArgs args = Resolved a ->
  issued (resolveCursorConnection args toCursor resolve) = issued (resolve a).
Proof.
  intros Hp. unfold resolveCursorConnection. rewrite Hp.
  destruct (resolve a) as [l [nodes|e]]; simpl; [|reflexivity].
  apply app_nil_r.
Qed.

(** *** Guarded callbacks *)

Lemma checkpoints_fetch_before (up : Upstream) (a : ResolveCursorConnectionArgs) :
  truthy_str (rc_before a) = true -> checkpoints_fetch up a = throw BACKWARDS.
Proof. intros H. unfold checkpoints_fetch. by rewrite H. Qed.

Lemma transactionBlocks_fetch_before (up : Upstream)
    (filter : option TransactionFilter) (a : ResolveCursorConnectionArgs) :
  truthy_str (rc_before a) = true ->
  transactionBlocks_fetch up filter a = throw BACKWARDS.
Proof. intros H. unfold transactionBlocks_fetch. by rewrite H. Qed.

Lemma events_fetch_before (up : Upstream) (a : ResolveCursorConnectionArgs) :
  truthy_str (rc_before a) = true -> events_fetch up a = throw BACKWARDS.
Proof. intros H. unfold events_fetch. by rewrite H. Qed.

(** The seven resolvers whose callback tests [before] reject a non-empty
    [before] cursor and send nothing. *)
Lemma guarded_resolvers_reject_before (up : Upstream) (n : option nat)
    (c : string) (cp : Checkpoint) (ep : EpochInfo) (addr : string) :
  c <> "" ->
  let args := backward n c in
  checkpointConnection up args = throw BACKWARDS
  /\ transactionBlockConnection up args = throw BACKWARDS
  /\ eventConnection up args = throw BACKWARDS
  /\ Checkpoint_transactionsConnection up cp args = throw BACKWARDS
  /\ Epoch_checkpointsConnection up ep args = throw BACKWARDS
  /\ Epoch_transactionBlocksConnection up ep args = throw BACKWARDS
  /\ Address_transactionBlockConnection up addr args = throw BACKWARDS.
Proof.
  intros Hc args. destruct (parse_backward n c) as [a [Hp Hb]].
  assert (Ht : truthy_str (rc_before a) = true).
  { rewrite Hb. destruct c; [done | reflexivity]. }
  repeat split;
    (eapply resolveCursorConnection_throw; [exact Hp|]);
    auto using checkpoints_fetch_before, transactionBlocks_fetch_before,
      events_fetch_before.
Qed.

(** C3, at [receivedTransactionBlockConnection].  Given a [before] cursor
    the resolver sends its one request all the same, and answers with a
    connection whenever the upstream answers. *)
Theorem receivedTransactionBlockConnection_ignores_before (up : Upstream)
    (obj : SuiObjectData) (n : option nat) (c : string) :
  let request :=
    QueryTransactionBlocks
      {| qtb_filter := Some (ToAddress (objectId obj)); qtb_limit := None;
         qtb_cursor := None; qtb_order := None |} in
  issued (receivedTransactionBlockConnection up obj (backward n c)) = [request]
  /\ forall page,
       queryTransactionBlocks up
         {| qtb_filter := Some (ToAddress (objectId obj)); qtb_limit := None;
            qtb_cursor := None; qtb_order := None |} = Resolved page ->
       exists conn,
         settled (receivedTransactionBlockConnection up obj (backward n c))
         = Resolved conn.
Proof.
  intros request. destruct (parse_backward n c) as [a [Hp _]].
  unfold receivedTransactionBlockConnection. split.
  - rewrite (resolveCursorConnection_issued _ _ _ a Hp).
    unfold receivedTransactionBlocks_fetch. apply LoaderFacts.issued_call_then.
  - intros page Hpage. unfold resolveCursorConnection. rewrite Hp.
    unfold receivedTransactionBlocks_fetch, call, bind, settled.
    rewrite Hpage. simpl. eauto.
Qed.

(** *** What the callbacks hand to the upstream *)

(** The checkpoint and transaction-block callbacks pass the [after] cursor
    on. *)
Lemma guarded_fetch_passes_cursor (up : Upstream)
    (filter : option TransactionFilter) (a : ResolveCursorConnectionArgs) :
  truthy_str (rc_before a) = false ->
  map cursor_of (issued (checkpoints_fetch up a)) = [rc_after a]
  /\ map cursor_of (issued (transactionBlocks_fetch up filter a)) = [rc_after a].
Proof.
  intros H. unfold checkpoints_fetch, transactionBlocks_fetch. rewrite H.
  split; rewrite LoaderFacts.issued_call_then; reflexivity.
Qed.

(** The event callback reads the limit and nothing else. *)
Lemma events_fetch_limit_only (up : Upstream) (a a' : ResolveCursorConnectionArgs) :
  truthy_str (rc_before a) = truthy_str (rc_before a') ->
  limit a = limit a' ->
  events_fetch up a = events_fetch up a'.
Proof. intros Hb Hl. unfold events_fetch. by rewrite Hb, Hl. Qed.

(** Whatever cursor is given as [after], [eventConnection] sends the
    request of the first page, without cursor or order, and answers with
    the edges and the [hasNextPage] flag of the first page. *)
Lemma eventConnection_same_page (up : Upstream) (n : nat) (c : string) :
  issued (eventConnection up (forward n (Some c)))
  = [QueryEvents {| qe_limit := Z.min (Z.of_nat n) DEFAULT_MAX_SIZE + 1;
                    qe_cursor := None; qe_order := None |}]
  /\ issued (eventConnection up (forward n (Some c)))
     = issued (eventConnection up (forward n None))
  /\ page_of (eventConnection up (forward n (Some c)))
     = page_of (eventConnection up (forward n None)).
Proof.
  unfold eventConnection, page_of, resolveCursorConnection.
  rewrite !parse_forward.
  rewrite (events_fetch_limit_only up
             {| rc_before := None; rc_after := Some c; inverted := false;
                limit := Z.min (Z.of_nat n) DEFAULT_MAX_SIZE + 1 |}
             {| rc_before := None; rc_after := None; inverted := false;
                limit := Z.min (Z.of_nat n) DEFAULT_MAX_SIZE + 1 |})
    by reflexivity.
  unfold events_fetch, call, bind, ret, issued, settled. simpl.
  destruct (queryEvents up _) as [page|e]; simpl; auto.
Qed.

(** *** Direction *)

(** Arguments that ask for the last [S n] items: the helper sets
    [inverted]. *)
Definition from_end (n : nat) : ConnectionArgs :=
  {| first := None; after := None; last := Some (Z.of_nat (S n)); before := None |}.

Lemma parse_from_end (n : nat) :
  parseCursorArgs (from_end n)
  = Resolved {| rc_before := None; rc_after := None; inverted := true;
                limit := Z.min (Z.of_nat (S n)) DEFAULT_MAX_SIZE + 1 |}.
Proof.
  unfold parseCursorArgs, from_end. cbn [first last after before is_negative].
  destruct (Z.ltb_spec (Z.of_nat (S n)) 0) as [E|E]; [lia|].
  cbn [truthy_str truthy_int orElse default negb andb orb].
  assert (negb (Z.of_nat (S n) =? 0) = true) as H.
  { destruct (Z.eqb_spec (Z.of_nat (S n)) 0); [lia|done]. }
  unfold truthy_int. by rewrite ?H.
Qed.

(** The order the guarded callbacks ask for, read off [inverted]. *)
Lemma guarded_fetch_direction (up : Upstream)
    (filter : option TransactionFilter) (a : ResolveCursorConnectionArgs) :
  truthy_str (rc_before a) = false ->
  map direction_of (issued (transactionBlocks_fetch up filter a))
  = [Some (if inverted a then descending else ascending)]
  /\ map direction_of (issued (checkpoints_fetch up a))
     = [Some (if inverted a then ascending else descending)].
Proof.
  intros H. unfold transactionBlocks_fetch, checkpoints_fetch.
  rewrite H, !LoaderFacts.issued_call_then. simpl.
  destruct (inverted a); auto.
Qed.

(** C7, as the code has it.  The four transaction-block resolvers whose
    callback reads its arguments ([transactionBlockConnection],
    [Checkpoint.transactionsConnection], [Epoch.transactionBlocksConnection],
    [Address.transactionBlockConnection]) pass
    [order: inverted ? 'descending' : 'ascending']: forward arguments ask
    the upstream for ascending order, inverted ones for descending order.
    The two checkpoint resolvers ([checkpointConnection],
    [Epoch.checkpointsConnection]) pass [descendingOrder: !inverted]:
    forward arguments ask for descending order, inverted ones for
    ascending order.  So [inverted] flips the direction in both families,
    and the two families map it in opposite senses. *)
Theorem direction_mapping (up : Upstream) :
  (forall n c cp ep addr,
      let args := forward n c in
      map direction_of (issued (transactionBlockConnection up args))
      = [Some ascending]
      /\ map direction_of (issued (Checkpoint_transactionsConnection up cp args))
         = [Some ascending]
      /\ map direction_of (issued (Epoch_transactionBlocksConnection up ep args))
         = [Some ascending]
      /\ map direction_of (issued (Address_transactionBlockConnection up addr args))
         = [Some ascending]
      /\ map direction_of (issued (checkpointConnection up args))
         = [Some descending]
      /\ map direction_of (issued (Epoch_checkpointsConnection up ep args))
         = [Some descending])
  /\ (forall n cp ep addr,
        let args := from_end n in
        map direction_of (issued (transactionBlockConnection up args))
        = [Some descending]
        /\ map direction_of (issued (Checkpoint_transactionsConnection up cp args))
           = [Some descending]
        /\ map direction_of (issued (Epoch_transactionBlocksConnection up ep args))
           = [Some descending]
        /\ map direction_of (issued (Address_transactionBlockConnection up addr args))
           = [Some descending]
        /\ map direction_of (issued (checkpointConnection up args))
           = [Some ascending]
        /\ map direction_of (issued (Epoch_checkpointsConnection up ep args))
           = [Some ascending])
  /\ (forall filter a,
        truthy_str (rc_before a) = false ->
        map direction_of (issued (transactionBlocks_fetch up filter a))
        = [Some (if inverted a then descending else ascending)]
        /\ map direction_of (issued (checkpoints_fetch up a))
           = [Some (if inverted a then ascending else descending)]).
Proof.
  split; [|split].
  - intros n c cp ep addr args.
    unfold checkpointConnection, Epoch_checkpointsConnection,
      transactionBlockConnection, Checkpoint_transactionsConnection,
      Epoch_transactionBlocksConnection, Address_transactionBlockConnection.
    rewrite !(resolveCursorConnection_issued _ _ _ _ (parse_forward n c)).
    repeat split;
      match goal with
      | |- context [transactionBlocks_fetch up ?f ?a] =>
          exact (proj1 (guarded_fetch_direction up f a eq_refl))
      | |- context [checkpoints_fetch up ?a] =>
          exact (proj2 (guarded_fetch_direction up None a eq_refl))
      end.
  - intros n cp ep addr args.
    unfold checkpointConnection, Epoch_checkpointsConnection,
      transactionBlockConnection, Checkpoint_transactionsConnection,
      Epoch_transactionBlocksConnection, Address_transactionBlockConnection.
    rewrite !(resolveCursorConnection_issued _ _ _ _ (parse_from_end n)).
    repeat split;
      match goal with
      | |- context [transactionBlocks_fetch up ?f ?a] =>
          exact (proj1 (guarded_fetch_direction up f a eq_refl))
      | |- context [checkpoints_fetch up ?a] =>
          exact (proj2 (guarded_fetch_direction up None a eq_refl))
      end.
  - apply guarded_fetch_direction.
Qed.

(** *** Cursors *)

Lemma resolveCursorConnection_cursors {N} (args : ConnectionArgs)
    (toCursor : N -> string)
    (resolve : ResolveCursorConnectionArgs -> Rpc (list N)) (conn : Connection N) :
  settled (resolveCursorConnection args toCursor resolve) = Resolved conn ->
  Forall (fun e => cursor e = toCursor (node e)) (edges conn).
Proof.
  unfold resolveCursorConnection.
  destruct (parseCursorArgs args) as [a|e]; [|discriminate].
  destruct (resolve a) as [l [nodes|e]]; [|discriminate].
  simpl. intros [= <-]. simpl.
  apply Forall_fmap, Forall_true. intros v. reflexivity.
Qed.

End ConnectionFacts.

(* ===================================================================== *)
(** ** Paging forward through a connection *)
(* ===================================================================== *)

Module RoundTrip.
Import JS Relay Schema Dataset ConnectionFacts.

(** The client's loop: ask for pages of [n], each after the [endCursor]
    of the one before, until [hasNextPage] is false; the nodes of all the
    pages, in order.  [None] when [fuel] pages were not enough or a page
    was refused. *)
Fixpoint paginate {N} (resolver : ConnectionArgs -> Rpc (Connection N))
    (fuel n : nat) (c : option string) : option (list N) :=
  match fuel with
  | O => None
  | S fuel' =>
      match settled (resolver (forward n c)) with
      | Rejected _ => None
      | Resolved conn =>
          let items := map node (edges conn) in
          if pi_hasNextPage (pageInfo conn)
          then option_map (app items)
                 (paginate resolver fuel' n (Some (endCursor (pageInfo conn))))
          else Some items
      end
  end.

Lemma paginate_S {N} (resolver : ConnectionArgs -> Rpc (Connection N))
    (fuel n : nat) (c : option string) :
  paginate resolver (S fuel) n c
  = match settled (resolver (forward n c)) with
    | Rejected _ => None
    | Resolved conn =>
        if pi_hasNextPage (pageInfo conn)
        then option_map (app (map node (edges conn)))
               (paginate resolver fuel n (Some (endCursor (pageInfo conn))))
        else Some (map node (edges conn))
    end.
Proof. reflexivity. Qed.

Lemma after_cursor_app {A} (toCursor : A -> string) (pre rest : list A) (x : A) :
  NoDup (map toCursor (pre ++ x :: rest)) ->
  after_cursor toCursor (toCursor x) (pre ++ x :: rest) = rest.
Proof.
  induction pre as [|y pre IH]; simpl.
  - by rewrite String.eqb_refl.
  - intros Hnd. apply NoDup_cons in Hnd as [Hy Hnd].
    destruct (String.eqb_spec (toCursor y) (toCursor x)) as [E|_]; [|by apply IH].
    exfalso. apply Hy. rewrite E, map_app. simpl.
    apply list_elem_of_In, in_or_app. right. by left.
Qed.

Section Generic.

Context {N : Type}.
Variable toCursor : N -> string.
Variable l : list N.
Variable resolve : ResolveCursorConnectionArgs -> Rpc (list N).
Variable n : nat.

(** The callback reads [limit] items after the [after] cursor. *)
Hypothesis resolve_serves : forall a,
  rc_before a = None -> inverted a = false ->
  settled (resolve a)
  = Resolved (take (Z.to_nat (limit a)) (start toCursor l (rc_after a))).
Hypothesis distinct : NoDup (map toCursor l).
Hypothesis page_size : (1 <= n <= 100)%nat.

Lemma page_forward (c : option string) :
  exists conn,
    settled (resolveCursorConnection (forward n c) toCursor resolve) = Resolved conn
    /\ map node (edges conn) = take n (start toCursor l c)
    /\ pi_hasNextPage (pageInfo conn) = (n <? length (start toCursor l c))%nat
    /\ forall init x, take n (start toCursor l c) = init ++ [x] ->
         endCursor (pageInfo conn) = toCursor x.
Proof.
  unfold resolveCursorConnection. rewrite parse_forward.
  replace (Z.min (Z.of_nat n) DEFAULT_MAX_SIZE + 1) with (Z.of_nat (S n))
    by (unfold DEFAULT_MAX_SIZE; lia).
  pose proof (resolve_serves
                {| rc_before := None; rc_after := c; inverted := false;
                   limit := Z.of_nat (S n) |} eq_refl eq_refl) as Hs.
  destruct (resolve _) as [lg r]. simpl in Hs. subst r.
  set (rest := start toCursor l c). unfold bind, ret, settled. simpl snd.
  eexists. split; [reflexivity|]. cbn [edges pageInfo pi_hasNextPage endCursor inverted limit].
  rewrite Nat2Z.id.
  replace (Z.to_nat (Z.of_nat (S n) - 1)) with n by lia.
  rewrite take_take, Nat.min_l by lia.
  split; [|split].
  - rewrite map_map. simpl. apply map_id.
  - rewrite length_take.
    destruct (Nat.ltb_spec n (length rest)), (Z.geb_spec (Z.of_nat (S n `min` length rest)) (Z.of_nat (S n)));
      try reflexivity; lia.
  - intros init x Hx. rewrite Hx, !map_app. simpl.
    by rewrite last_last.
Qed.

Lemma paginate_from (k : nat) (pre rest : list N) (c : option string) :
  (length rest <= k)%nat ->
  l = pre ++ rest ->
  start toCursor l c = rest ->
  paginate (fun args => resolveCursorConnection args toCursor resolve) (S k) n c
  = Some rest.
Proof.
  revert pre rest c. induction k as [|k IH]; intros pre rest c Hk Hl Hc;
    rewrite paginate_S;
    destruct (page_forward c) as [conn [-> [Hitems [-> Hend]]]];
    rewrite Hitems, Hc;
    destruct (Nat.ltb_spec n (length rest)) as [Hlt|Hge];
    try (by rewrite take_ge by lia); [lia|].
  destruct (exists_last (l := take n rest)) as [init [x Hx]].
  { intros E. apply (f_equal length) in E. rewrite length_take in E.
    simpl in E. lia. }
  rewrite (Hend init x) by (by rewrite Hc).
  rewrite (IH (pre ++ take n rest) (drop n rest)).
  - simpl. by rewrite take_drop.
  - rewrite length_drop. lia.
  - by rewrite <- app_assoc, take_drop.
  - assert (Hsplit : l = (pre ++ init) ++ x :: drop n rest).
    { rewrite Hl, <- app_assoc. f_equal.
      rewrite <- (take_drop n rest) at 1. by rewrite Hx, <- app_assoc. }
    simpl. generalize distinct. rewrite Hsplit. apply after_cursor_app.
Qed.

(** Paging forward from the start returns the whole list, in order. *)
Lemma paginate_all :
  paginate (fun args => resolveCursorConnection args toCursor resolve)
    (S (length l)) n None
  = Some l.
Proof. by apply (paginate_from (length l) [] l None). Qed.

End Generic.

(** X14.  Against an upstream that pages through [txs], paging forward
    through [transactionBlockConnection], with a page size from 1 to 100,
    returns [txs] in order when the digests are distinct. *)
Lemma transactionBlockConnection_round_trip (txs : list TransactionBlock)
    (cps : list Checkpoint) (evs : list SuiEvent) (n : nat) :
  NoDup (map txb_digest txs) ->
  (1 <= n <= 100)%nat ->
  paginate (transactionBlockConnection (serving txs cps evs)) (S (length txs)) n None
  = Some txs.
Proof.
  intros Hnd Hn.
  apply (paginate_all TransactionBlock_toCursor txs
           (transactionBlocks_fetch (serving txs cps evs) None) n);
    [|exact Hnd|exact Hn].
  intros a Hb Hi. unfold transactionBlocks_fetch. rewrite Hb, Hi. reflexivity.
Qed.

(** X15.  Paging forward through [checkpointConnection], with a page size
    from 1 to 100, returns the checkpoints newest first when the sequence
    numbers are distinct: the resolver asks for descending order. *)
Lemma checkpointConnection_round_trip (txs : list TransactionBlock)
    (cps : list Checkpoint) (evs : list SuiEvent) (n : nat) :
  NoDup (map sequenceNumber cps) ->
  (1 <= n <= 100)%nat ->
  paginate (checkpointConnection (serving txs cps evs)) (S (length cps)) n None
  = Some (rev cps).
Proof.
  intros Hnd Hn. rewrite <- length_rev.
  apply (paginate_all Checkpoint_toCursor (rev cps)
           (checkpoints_fetch (serving txs cps evs)) n);
    [| |exact Hn].
  - intros a Hb Hi. unfold checkpoints_fetch. rewrite Hb, Hi. reflexivity.
  - rewrite map_rev. by apply NoDup_ListNoDup, NoDup_rev, NoDup_ListNoDup.
Qed.

(** Against the same upstream, paging forward through [eventConnection]
    never ends when there are more events than one page holds: every page
    is the first one and announces a next one. *)
Lemma eventConnection_pagination_never_ends (txs : list TransactionBlock)
    (cps : list Checkpoint) (evs : list SuiEvent) (n fuel : nat)
    (c : option string) :
  (n <= 100)%nat ->
  (n < length evs)%nat ->
  paginate (eventConnection (serving txs cps evs)) fuel n c = None.
Proof.
  intros Hn Hlen. revert c. induction fuel as [|fuel IH]; intros c; [reflexivity|].
  rewrite paginate_S.
  unfold eventConnection at 1, resolveCursorConnection. rewrite parse_forward.
  replace (Z.min (Z.of_nat n) DEFAULT_MAX_SIZE + 1) with (Z.of_nat (S n))
    by (unfold DEFAULT_MAX_SIZE; lia).
  unfold events_fetch, call, bind, ret, settled.
  cbn [rc_before truthy_str serving queryEvents snd fst pageOf page_data
       qe_cursor qe_order qe_limit limit inverted pageInfo pi_hasNextPage].
  rewrite Nat2Z.id, length_take.
  destruct (Z.geb_spec (Z.of_nat (S n `min` length evs)) (Z.of_nat (S n)));
    [|lia].
  by rewrite IH.
Qed.

(** C4, at [eventConnection].  Whatever cursor is given as [after], the
    resolver sends the request of the first page, without cursor or order,
    and answers with the edges and the [hasNextPage] flag of the first
    page; so against an upstream that pages through more events than a
    page holds, paging forward returns no total at all, however many pages
    are asked for. *)
Theorem eventConnection_ignores_after :
  (forall up n c,
      issued (eventConnection up (forward n (Some c)))
      = [QueryEvents {| qe_limit := Z.min (Z.of_nat n) DEFAULT_MAX_SIZE + 1;
                        qe_cursor := None; qe_order := None |}]
      /\ page_of (eventConnection up (forward n (Some c)))
         = page_of (eventConnection up (forward n None)))
  /\ (forall txs cps evs n fuel,
        (n <= 100)%nat ->
        (n < length evs)%nat ->
        paginate (eventConnection (serving txs cps evs)) fuel n None = None).
Proof.
  split.
  - intros up n c.
    destruct (eventConnection_same_page up n c) as [H1 [_ H3]]. auto.
  - intros txs cps evs n fuel Hn Hlen.
    by apply eventConnection_pagination_never_ends.
Qed.

End RoundTrip.

(* ===================================================================== *)
(** ** Facts about the conversions *)
(* ===================================================================== *)

Module ConvertFacts.
Import JS Convert.

(** Every character of [s] passes [p]. *)
Fixpoint all_chars (p : ascii -> bool) (s : string) : bool :=
  match s with
  | EmptyString => true
  | String c r => p c && all_chars p r
  end.

Definition is_digit (c : ascii) : bool :=
  match digit c with
  | Some _ => true
  | None => false
  end.

Lemma digit_digit_char (d : Z) : 0 <= d < 10 -> digit (digit_char d) = Some d.
Proof.
  intros H.
  assert (E : d = 0 \/ d = 1 \/ d = 2 \/ d = 3 \/ d = 4 \/ d = 5 \/ d = 6
              \/ d = 7 \/ d = 8 \/ d = 9) by lia.
  repeat (destruct E as [-> | E]; [reflexivity|]). by subst.
Qed.

Lemma is_digit_digit_char (d : Z) : 0 <= d < 10 -> is_digit (digit_char d) = true.
Proof. intros H. unfold is_digit. by rewrite digit_digit_char. Qed.

(** What holds of every decimal digit character holds of [c] when it is
    one. *)
Lemma digit_cases (P : ascii -> Prop) (c : ascii) :
  is_digit c = true ->
  (forall d, 0 <= d < 10 -> P (digit_char d)) -> P c.
Proof.
  intros Hc HP.
  assert (Hd : forall d, (0 <=? d) && (d <? 10) = true -> P (digit_char d)).
  { intros d H. apply HP. lia. }
  destruct c as [[] [] [] [] [] [] [] []]; try discriminate Hc;
    first [ exact (Hd 0 eq_refl) | exact (Hd 1 eq_refl) | exact (Hd 2 eq_refl)
          | exact (Hd 3 eq_refl) | exact (Hd 4 eq_refl) | exact (Hd 5 eq_refl)
          | exact (Hd 6 eq_refl) | exact (Hd 7 eq_refl) | exact (Hd 8 eq_refl)
          | exact (Hd 9 eq_refl) ].
Qed.

Lemma decimal_head (f : nat) (n : Z) (acc : string) :
  exists d r, 0 <= d < 10 /\ decimal (S f) n acc = String (digit_char d) r.
Proof.
  revert n acc. induction f as [|f IH]; intros n acc.
  - exists (n mod 10), acc. split; [apply Z.mod_pos_bound; lia|].
    simpl. by destruct (n / 10 =? 0).
  - change (decimal (S (S f)) n acc)
      with (if n / 10 =? 0 then String (digit_char (n mod 10)) acc
            else decimal (S f) (n / 10) (String (digit_char (n mod 10)) acc)).
    destruct (n / 10 =? 0); [|apply IH].
    exists (n mod 10), acc. split; [apply Z.mod_pos_bound; lia | reflexivity].
Qed.

Lemma decimal_all_digits (f : nat) (n : Z) (acc : string) :
  all_chars is_digit acc = true -> all_chars is_digit (decimal f n acc) = true.
Proof.
  revert n acc. induction f as [|f IH]; intros n acc Hacc; [exact Hacc|].
  simpl.
  assert (H : all_chars is_digit (String (digit_char (n mod 10)) acc) = true).
  { simpl. rewrite Hacc, is_digit_digit_char; [reflexivity|].
    apply Z.mod_pos_bound. lia. }
  destruct (n / 10 =? 0); [exact H | by apply IH].
Qed.

(** Reading the digits written for [n] adds them to what was read. *)
Lemma digits_decimal (f : nat) (n : Z) (acc : string) (a : option Z) :
  0 <= n < 2 ^ Z.of_nat (S f) ->
  exists k : nat,
    digits (decimal (S f) n acc) a
    = digits acc (Some (default 0 a * 10 ^ Z.of_nat k + n)).
Proof.
  revert n acc. induction f as [|f IH]; intros n acc Hn.
  - assert (n / 10 = 0) as E by (apply Z.div_small; simpl in Hn; lia).
    exists 1%nat. simpl decimal. rewrite E. simpl.
    assert (n mod 10 = n) as -> by (apply Z.mod_small; simpl in Hn; lia).
    rewrite digit_digit_char by (simpl in Hn; lia).
    do 2 f_equal. lia.
  - change (decimal (S (S f)) n acc)
      with (if n / 10 =? 0 then String (digit_char (n mod 10)) acc
            else decimal (S f) (n / 10) (String (digit_char (n mod 10)) acc)).
    pose proof (Z.mod_pos_bound n 10 ltac:(lia)) as Hm.
    pose proof (Z.div_mod n 10 ltac:(lia)) as Hdm.
    destruct (Z.eqb_spec (n / 10) 0) as [E|E].
    + exists 1%nat. simpl. rewrite digit_digit_char by lia.
      do 2 f_equal. lia.
    + destruct (IH (n / 10) (String (digit_char (n mod 10)) acc)) as [k Hk].
      { split; [apply Z.div_pos; lia|].
        apply Z.div_lt_upper_bound; [lia|].
        rewrite (Nat2Z.inj_succ (S f)), Z.pow_succ_r in Hn by lia. lia. }
      exists (S k). rewrite Hk. simpl digits.
      rewrite digit_digit_char by lia. simpl default.
      do 2 f_equal. rewrite (Nat2Z.inj_succ k), Z.pow_succ_r by lia. lia.
Qed.

Lemma digits_String_of_nonneg (n : Z) :
  0 <= n -> digits (String_of_nonneg n) None = Some n.
Proof.
  intros Hn. unfold String_of_nonneg.
  destruct (digits_decimal (Z.to_nat (Z.log2 n)) n "" None) as [k Hk].
  - split; [exact Hn|].
    rewrite Nat2Z.inj_succ, Z2Nat.id by apply Z.log2_nonneg.
    destruct (Z.eq_dec n 0) as [->|Hz]; [reflexivity|].
    apply Z.log2_spec. lia.
  - rewrite Hk. simpl. f_equal; lia.
Qed.

Lemma parseInt_digit_head (c : ascii) (r : string) :
  is_digit c = true ->
  parseInt (String c r)
  = match digits (String c r) None with
    | None => NaN
    | Some v => Num v
    end.
Proof.
  intros Hc. revert r.
  apply (digit_cases
           (fun c => forall r, parseInt (String c r)
                               = match digits (String c r) None with
                                 | None => NaN
                                 | Some v => Num v
                                 end) c Hc).
  intros d Hd r.
  assert (E : d = 0 \/ d = 1 \/ d = 2 \/ d = 3 \/ d = 4 \/ d = 5 \/ d = 6
              \/ d = 7 \/ d = 8 \/ d = 9) by lia.
  repeat (destruct E as [-> | E]; [reflexivity|]). by subst.
Qed.

Lemma String_of_nonneg_head (n : Z) :
  exists d r, 0 <= d < 10 /\ String_of_nonneg n = String (digit_char d) r.
Proof. apply decimal_head. Qed.

(** Reading the decimal text of an integer gives the integer back:
    [Number.parseInt(String(z), 10)] is [z]. *)
Lemma parseInt_String_of_int (z : Z) : parseInt (String_of_int z) = Num z.
Proof.
  unfold String_of_int.
  destruct (Z.ltb_spec z 0) as [Hneg|Hpos].
  - destruct (String_of_nonneg_head (- z)) as [d [r [Hd E]]].
    pose proof (digits_String_of_nonneg (- z) ltac:(lia)) as Hv.
    rewrite E in *.
    assert (H : parseInt (String "-" (String (digit_char d) r))
                = match digits (String (digit_char d) r) None with
                  | None => NaN
                  | Some v => Num (- v)
                  end).
    { assert (C : d = 0 \/ d = 1 \/ d = 2 \/ d = 3 \/ d = 4 \/ d = 5 \/ d = 6
                  \/ d = 7 \/ d = 8 \/ d = 9) by lia.
      repeat (destruct C as [-> | C]; [reflexivity|]). by subst. }
    rewrite H, Hv. f_equal. lia.
  - destruct (String_of_nonneg_head z) as [d [r [Hd E]]].
    pose proof (digits_String_of_nonneg z Hpos) as Hv.
    rewrite E in *.
    by rewrite parseInt_digit_head, Hv by (by apply is_digit_digit_char).
Qed.

End ConvertFacts.

(* ===================================================================== *)
(** ** More about the epoch accumulator *)
(* ===================================================================== *)

Module EpochsMore.
Import JS Epochs JSFacts EpochsFacts.

(** The cursor after reading [ps] from [c]. *)
Definition cursor_after (c : option string) (ps : list (Page EpochInfo))
  : option string :=
  match last ps with
  | Some p => nextCursor p
  | None => c
  end.

Lemma fold_absorb_allEpochs (ps : list (Page EpochInfo)) (st : State) :
  allEpochs (fold_left absorb ps st)
  = allEpochs st ++ concat (map page_data ps).
Proof.
  revert st. induction ps as [|p ps IH]; intros st; simpl.
  - by rewrite app_nil_r.
  - by rewrite IH, absorb_allEpochs, app_assoc.
Qed.

Lemma fold_absorb_cursor (ps : list (Page EpochInfo)) (st : State) :
  epochCursor (fold_left absorb ps st) = cursor_after (epochCursor st) ps.
Proof.
  revert st. induction ps as [|p ps IH]; intros st; [reflexivity|].
  simpl fold_left. rewrite IH, absorb_cursor. unfold cursor_after.
  rewrite last_cons. by destruct (last ps).
Qed.

Lemma length_requests (c : option string) (ps : list (Page EpochInfo)) :
  length (requests c ps) = length ps.
Proof.
  revert c. induction ps as [|p ps IH]; intros c; simpl; [done|]. by rewrite IH.
Qed.

Lemma scan_first_request (up : Upstream) (fuel : nat) (max : number)
    (st st' : State) (l : list RpcCall) (r : Settled unit) :
  gt max (latestEpoch st) = true ->
  scan up fuel max st = Some (st', (l, r)) ->
  exists rest, l = GetEpochs (epochCursor st) :: rest.
Proof.
  intros Hgt. destruct fuel as [|fuel]; simpl; rewrite Hgt; [discriminate|].
  destruct (getEpochs_rpc up (epochCursor st)) as [page|e].
  - destruct (hasNextPage page).
    + destruct (scan up fuel max (absorb st page)) as [[st2 [l2 r2]]|];
        [|discriminate].
      intros [= _ <- _]. eauto.
    + intros [= _ <- _]. eauto.
  - intros [= _ <- _]. eauto.
Qed.

(** X3.  After a call that resolved with the watermark at or above its
    highest key, the same keys asked again cost no request and get the
    same answers, whatever the upstream does meanwhile.  After a call that
    resolved below its highest key (the history ended first), every
    further call for these keys asks the upstream again, starting at the
    cursor that was left. *)
Theorem getEpochs_again (up : Upstream) (fuel : nat) (keys : list string)
    (st st' : State) (l : list RpcCall) (res : list (Loaded EpochInfo)) :
  getEpochs up fuel keys st = Some (st', (l, Resolved res)) ->
  (gt (Math_max (map parseInt keys)) (latestEpoch st') = false ->
   forall up' fuel',
     getEpochs up' fuel' keys st' = Some (st', ([], Resolved res)))
  /\ (gt (Math_max (map parseInt keys)) (latestEpoch st') = true ->
      forall up' fuel' st'' l' r',
        getEpochs up' fuel' keys st' = Some (st'', (l', r')) ->
        exists rest, l' = GetEpochs (epochCursor st') :: rest).
Proof.
  intros H. destruct (getEpochs_resolved _ _ _ _ _ _ _ H) as [-> _]. split.
  - intros Hgt up' fuel'. by apply getEpochs_covered.
  - intros Hgt up' fuel' st'' l' r'. unfold getEpochs.
    destruct (scan up' fuel' _ st') as [[st2 [l2 [[]|e]]]|] eqn:E;
      intros H2; try discriminate; injection H2 as _ <- _;
      eapply scan_first_request; eauto.
Qed.

Lemma scan_rejected (up : Upstream) (fuel : nat) (max : number) (st st' : State)
    (l : list RpcCall) (e : string) :
  scan up fuel max st = Some (st', (l, Rejected e)) ->
  exists ps,
    served up (epochCursor st) ps
    /\ st' = fold_left absorb ps st
    /\ l = requests (epochCursor st) ps ++ [GetEpochs (epochCursor st')]
    /\ getEpochs_rpc up (epochCursor st') = Rejected e
    /\ gt max (latestEpoch st') = true.
Proof.
  revert st st' l. induction fuel as [|fuel IH]; intros st st' l; simpl.
  - destruct (gt max (latestEpoch st)); discriminate.
  - destruct (gt max (latestEpoch st)) eqn:Hgt; [|discriminate].
    destruct (getEpochs_rpc up (epochCursor st)) as [page|e0] eqn:Hrpc.
    + destruct (hasNextPage page); [|discriminate].
      destruct (scan up fuel max (absorb st page)) as [[st2 [l2 r2]]|] eqn:E;
        [|discriminate].
      intros [= <- <- ->].
      destruct (IH _ _ _ E) as [ps [Hs [Hst [Hl [Hrej Hg]]]]].
      rewrite absorb_cursor in Hs, Hl.
      exists (page :: ps). simpl. rewrite Hl. auto.
    + intros [= <- <- <-]. exists []. simpl. auto.
Qed.

(** X4.  When a fetch is refused the call rejects with that error, but
    the pages absorbed before stay in the module variables and the cursor
    stays at the refused request: the next call for these keys sends that
    request first, and fails in the same way while the upstream keeps
    refusing it. *)
Theorem getEpochs_rejected_keeps_progress (up : Upstream) (fuel : nat)
    (keys : list string) (st st' : State) (l : list RpcCall) (e : string) :
  getEpochs up fuel keys st = Some (st', (l, Rejected e)) ->
  (exists ps,
      served up (epochCursor st) ps
      /\ st' = fold_left absorb ps st
      /\ l = requests (epochCursor st) ps ++ [GetEpochs (epochCursor st')])
  /\ getEpochs_rpc up (epochCursor st') = Rejected e
  /\ forall fuel',
       getEpochs up (S fuel') keys st'
       = Some (st', ([GetEpochs (epochCursor st')], Rejected e)).
Proof.
  unfold getEpochs.
  destruct (scan up fuel _ st) as [[st2 [l2 [[]|e2]]]|] eqn:E;
    intros H; try discriminate.
  injection H as <- <- <-.
  destruct (scan_rejected _ _ _ _ _ _ _ E) as [ps [Hs [Hst [Hl [Hrej Hg]]]]].
  split; [eauto|]. split; [exact Hrej|].
  intros fuel'. simpl. by rewrite Hg, Hrej.
Qed.

(** *** A record whose epoch is no number *)

Lemma watermark_of_NaN (l : list EpochInfo) :
  (exists e, In e l /\ parseInt (epoch e) = NaN) -> watermark_of l = NaN.
Proof.
  intros [e [Hin He]]. unfold watermark_of.
  generalize (Num (-1)). induction l as [|x l IH]; intros a; [destruct Hin|].
  simpl. destruct Hin as [-> | Hin].
  - rewrite He, max2_NaN_r. apply fold_max2_NaN.
  - by apply IH.
Qed.

Lemma later_consistent (st st' : State) :
  later st st' -> consistent st -> consistent st'.
Proof.
  induction 1 as [st | up fuel keys st st1 st2 out Hcall _ IH]; [done|].
  intros Hst. apply IH. eapply getEpochs_consistent; eauto.
Qed.

(** X5.  From the loading of the module on, [latestEpoch] is [Math.max]
    of [-1] and the epoch numbers of [allEpochs].  So once a record whose
    [epoch] does not read as a number has been accumulated, the watermark
    is [NaN] and no call fetches again: every key that is not yet in
    [allEpochs] is answered by the error from then on. *)
Theorem non_numeric_epoch_stops_scanning (st : State) :
  later initial st ->
  latestEpoch st = watermark_of (allEpochs st)
  /\ ((exists e, In e (allEpochs st) /\ parseInt (epoch e) = NaN) ->
      forall up fuel keys,
        getEpochs up fuel keys st
        = Some (st, ([], Resolved (lookup_keys st keys)))).
Proof.
  intros Hl.
  assert (Hc : consistent st) by (eapply later_consistent; eauto; reflexivity).
  split; [exact Hc|].
  intros He up fuel keys. apply getEpochs_covered.
  rewrite Hc, (watermark_of_NaN _ He). by destruct (Math_max _).
Qed.

End EpochsMore.

(* ===================================================================== *)
(** ** [getEpochs] calls in flight together *)
(* ===================================================================== *)

(** [getEpochs] is an async function: it runs without interruption from
    its invocation, or from the arrival of a page, up to the next [await]
    or to its return, and other calls may run in between.  Here a call is
    followed run by run; the module variables are shared by the calls in
    flight, and the trace records what was sent, received and returned, in
    order.  The answers are arbitrary: no assumption is made on the
    upstream. *)
Module Interleaved.
Import JS Epochs JSFacts EpochsFacts EpochsMore.

(** Where a call stands: suspended at [await suiClient.getEpochs({ cursor })]
    or settled. *)
Inductive Phase : Type :=
| Awaiting (c : option string)
| Finished (r : Settled (list (Loaded EpochInfo))).

Record Call : Type := {
  call_keys : list string;
  call_phase : Phase
}.

Inductive Event : Type :=
| Sent (id : nat) (c : option string)
| Received (id : nat) (answer : Settled (Page EpochInfo))
| Ended (id : nat) (r : Settled (list (Loaded EpochInfo))).

Record World : Type := {
  shared : State;
  calls : list Call;
  trace : list Event
}.

(** No call in flight, the module variables as earlier calls left them. *)
Definition idle (st : State) : World :=
  {| shared := st; calls := []; trace := [] |}.

(** The [while] test and what follows it in the same run: the next request
    is sent with the cursor of the moment and the call suspends, or the
    call returns the final [keys.map]. *)
Definition test (id : nat) (keys : list string) (st : State) : Phase * Event :=
  if gt (Math_max (map parseInt keys)) (latestEpoch st)
  then (Awaiting (epochCursor st), Sent id (epochCursor st))
  else (Finished (Resolved (lookup_keys st keys)),
        Ended id (Resolved (lookup_keys st keys))).

(** A new call, up to its first [await] or its return. *)
Definition invoke (keys : list string) (w : World) : World :=
  let id := length (calls w) in
  let '(ph, ev) := test id keys (shared w) in
  {| shared := shared w;
     calls := calls w ++ [{| call_keys := keys; call_phase := ph |}];
     trace := trace w ++ [ev] |}.

(** The answer to the request of call [id] arrives and the call runs on:
    a refusal is thrown; a page moves the cursor and is absorbed, then the
    call leaves the loop when the page has no next one, or tests again. *)
Definition deliver (id : nat) (answer : Settled (Page EpochInfo)) (w : World)
  : option World :=
  match calls w !! id with
  | Some {| call_keys := keys; call_phase := Awaiting _ |} =>
      match answer with
      | Rejected e =>
          Some {| shared := shared w;
                  calls := <[id := {| call_keys := keys;
                                      call_phase := Finished (Rejected e) |}]>
                             (calls w);
                  trace := trace w ++ [Received id answer; Ended id (Rejected e)] |}
      | Resolved page =>
          let st := absorb (shared w) page in
          let '(ph, ev) :=
            if hasNextPage page then test id keys st
            else (Finished (Resolved (lookup_keys st keys)),
                  Ended id (Resolved (lookup_keys st keys))) in
          Some {| shared := st;
                  calls := <[id := {| call_keys := keys; call_phase := ph |}]>
                             (calls w);
                  trace := trace w ++ [Received id answer; ev] |}
      end
  | _ => None
  end.

Inductive Action : Type :=
| Invoke (keys : list string)
| Deliver (id : nat) (answer : Settled (Page EpochInfo)).

Definition act (a : Action) (w : World) : option World :=
  match a with
  | Invoke keys => Some (invoke keys w)
  | Deliver id answer => deliver id answer w
  end.

(** The actions in order; [None] when an answer is delivered to a call
    that waits for none. *)
Fixpoint run (acts : list Action) (w : World) : option World :=
  match acts with
  | [] => Some w
  | a :: rest =>
      match act a w with
      | Some w' => run rest w'
      | None => None
      end
  end.

(** *** Reading a trace *)

Definition event_id (e : Event) : nat :=
  match e with
  | Sent id _ | Received id _ | Ended id _ => id
  end.

Definition page_in (e : Event) : option (Page EpochInfo) :=
  match e with
  | Received _ (Resolved p) => Some p
  | _ => None
  end.

(** The pages received, by any call, in order of arrival. *)
Definition pages_of (tr : list Event) : list (Page EpochInfo) := omap page_in tr.

Definition answer_in (id : nat) (e : Event) : option (Settled (Page EpochInfo)) :=
  match e with
  | Received i a => if Nat.eqb i id then Some a else None
  | _ => None
  end.

(** The answers call [id] received. *)
Definition received_by (id : nat) (tr : list Event)
  : list (Settled (Page EpochInfo)) :=
  omap (answer_in id) tr.

(** The events of call [id]. *)
Definition events_of (id : nat) (tr : list Event) : list Event :=
  List.filter (fun e => Nat.eqb (event_id e) id) tr.

(** [Math.max] of [w] and the epoch numbers of the records of [ps]. *)
Definition seen (w : number) (ps : list (Page EpochInfo)) : number :=
  fold_left max2
    (map (fun e => parseInt (epoch e)) (concat (map page_data ps))) w.

(** What the pages received so far make of the variables [st0]: their
    records after those of [st0], the highest epoch number among them and
    the watermark of [st0], the [nextCursor] of the last page. *)
Definition state_at (st0 : State) (tr : list Event) : State :=
  {| allEpochs := allEpochs st0 ++ concat (map page_data (pages_of tr));
     latestEpoch := seen (latestEpoch st0) (pages_of tr);
     epochCursor := cursor_after (epochCursor st0) (pages_of tr) |}.

Definition keys_of (cs : list Call) (id : nat) : option (list string) :=
  option_map call_keys (cs !! id).

(** The last event is not the arrival of an answer. *)
Definition settled_run (tr : list Event) : Prop :=
  forall i a, last tr <> Some (Received i a).

(** Call [id] has no event yet, and no other call is in the middle of a
    run. *)
Definition at_start (id : nat) (pre : list Event) : Prop :=
  events_of id pre = [] /\ settled_run pre.

(** Call [id] has just received an answer. *)
Definition after_receipt (id : nat) (pre : list Event) : Prop :=
  exists a, last pre = Some (Received id a).

(** A page that announces a next one. *)
Definition announces (a : Settled (Page EpochInfo)) : Prop :=
  exists p, a = Resolved p /\ hasNextPage p = true.

(** What makes event [e] right after the events [pre]:
    - a request is sent only by a call whose highest key is above every
      epoch number received so far (and the watermark of [st0]), with the
      [nextCursor] of the last page received (or the cursor of [st0]), by
      a call that was answered with pages announcing a next one only, at
      its invocation or right after an answer;
    - an answer arrives for the request the call sent last;
    - a call returns the lookup of its keys in the records received so
      far, when its highest key is not above the epoch numbers received or
      its last page announced no next one; it throws the refusal it has
      just received. *)
Definition justified (st0 : State) (cs : list Call) (pre : list Event)
    (e : Event) : Prop :=
  match e with
  | Sent id c =>
      exists keys,
        keys_of cs id = Some keys
        /\ gt (Math_max (map parseInt keys)) (latestEpoch (state_at st0 pre)) = true
        /\ c = epochCursor (state_at st0 pre)
        /\ Forall announces (received_by id pre)
        /\ (at_start id pre \/ after_receipt id pre)
  | Received id a =>
      (exists c, last (events_of id pre) = Some (Sent id c)) /\ settled_run pre
  | Ended id (Resolved res) =>
      exists keys,
        keys_of cs id = Some keys
        /\ res = lookup_keys (state_at st0 pre) keys
        /\ (gt (Math_max (map parseInt keys)) (latestEpoch (state_at st0 pre))
            = false
            \/ exists p, last (received_by id pre) = Some (Resolved p)
                         /\ hasNextPage p = false)
        /\ (at_start id pre \/ after_receipt id pre)
  | Ended id (Rejected err) => last pre = Some (Received id (Rejected err))
  end.

(** *** A call that runs alone *)

(** The upstream [up] answers the requests of call [id] one after the
    other and no other call runs in between; [fuel] bounds the number of
    answers, [None] means the call still waits when the bound is reached. *)
Fixpoint alone (up : Upstream) (fuel : nat) (id : nat) (w : World)
  : option World :=
  match calls w !! id with
  | Some {| call_keys := _; call_phase := Awaiting c |} =>
      match fuel with
      | O => None
      | S fuel' =>
          match deliver id (getEpochs_rpc up c) w with
          | Some w' => alone up fuel' id w'
          | None => None
          end
      end
  | _ => Some w
  end.

Definition request_in (id : nat) (e : Event) : option RpcCall :=
  match e with
  | Sent i c => if Nat.eqb i id then Some (GetEpochs c) else None
  | _ => None
  end.

(** The upstream requests of call [id]. *)
Definition requests_of (id : nat) (tr : list Event) : list RpcCall :=
  omap (request_in id) tr.

(** What a settled call leaves: the module variables, its requests and
    its settlement. *)
Definition outcome (id : nat) (w : World)
  : option (State * Rpc (list (Loaded EpochInfo))) :=
  match calls w !! id with
  | Some {| call_keys := _; call_phase := Finished r |} =>
      Some (shared w, (requests_of id (trace w), r))
  | _ => None
  end.

End Interleaved.

(* ===================================================================== *)
(** ** Properties of [getEpochs] calls in flight together *)
(* ===================================================================== *)

Module InterleavedFacts.
Import JS Epochs JSFacts EpochsFacts EpochsMore Interleaved.

Lemma State_ext (a b : State) :
  allEpochs a = allEpochs b -> latestEpoch a = latestEpoch b ->
  epochCursor a = epochCursor b -> a = b.
Proof. destruct a, b; simpl; congruence. Qed.

Lemma state_at_nil (st0 : State) : state_at st0 [] = st0.
Proof. apply State_ext; simpl; [apply app_nil_r|done|done]. Qed.

Lemma pages_of_app (tr tr' : list Event) :
  pages_of (tr ++ tr') = pages_of tr ++ pages_of tr'.
Proof. apply omap_app. Qed.

Lemma received_by_app (id : nat) (tr tr' : list Event) :
  received_by id (tr ++ tr') = received_by id tr ++ received_by id tr'.
Proof. apply omap_app. Qed.

Lemma events_of_app (id : nat) (tr tr' : list Event) :
  events_of id (tr ++ tr') = events_of id tr ++ events_of id tr'.
Proof. apply List.filter_app. Qed.

Lemma seen_snoc (w : number) (ps : list (Page EpochInfo)) (p : Page EpochInfo) :
  seen w (ps ++ [p])
  = fold_left max2 (map (fun e => parseInt (epoch e)) (page_data p)) (seen w ps).
Proof.
  unfold seen. rewrite map_app, concat_app. simpl. rewrite app_nil_r.
  by rewrite map_app, fold_left_app.
Qed.

(** A page that arrives is absorbed. *)
Lemma state_at_page (st0 : State) (tr : list Event) (id : nat)
    (p : Page EpochInfo) :
  state_at st0 (tr ++ [Received id (Resolved p)]) = absorb (state_at st0 tr) p.
Proof.
  apply State_ext.
  - rewrite absorb_allEpochs. simpl. rewrite pages_of_app. simpl.
    rewrite map_app, concat_app. simpl. rewrite app_nil_r. apply app_assoc.
  - rewrite absorb_latest. simpl. rewrite pages_of_app. simpl.
    apply seen_snoc.
  - rewrite absorb_cursor. simpl. rewrite pages_of_app. simpl.
    unfold cursor_after. by rewrite last_snoc.
Qed.

(** Other events leave the variables alone. *)
Lemma state_at_other (st0 : State) (tr : list Event) (e : Event) :
  page_in e = None -> state_at st0 (tr ++ [e]) = state_at st0 tr.
Proof.
  intros H. unfold state_at. rewrite pages_of_app.
  replace (pages_of [e]) with (@nil (Page EpochInfo));
    [by rewrite app_nil_r|].
  unfold pages_of. simpl. by rewrite H.
Qed.


(** *** The invariant of a run *)

#[local] Arguments state_at : simpl never.

Inductive Justified (st0 : State) (cs : list Call) : list Event -> Prop :=
| Justified_nil : Justified st0 cs []
| Justified_snoc tr e :
    Justified st0 cs tr -> justified st0 cs tr e -> Justified st0 cs (tr ++ [e]).

(** The phase of a call is what its last event says. *)
Definition phase_agrees (tr : list Event) (id : nat) (c : Call) : Prop :=
  match call_phase c with
  | Awaiting cur =>
      last (events_of id tr) = Some (Sent id cur)
      /\ Forall announces (received_by id tr)
  | Finished r => last (events_of id tr) = Some (Ended id r)
  end.

Record Inv (st0 : State) (w : World) : Prop := {
  inv_shared : shared w = state_at st0 (trace w);
  inv_justified : Justified st0 (calls w) (trace w);
  inv_phase : forall id c, calls w !! id = Some c -> phase_agrees (trace w) id c;
  inv_settled : settled_run (trace w);
  inv_ids : Forall (fun e => (event_id e < length (calls w))%nat) (trace w)
}.

Lemma justified_keys (st0 : State) (cs cs' : list Call) (pre : list Event)
    (e : Event) :
  (forall id ks, keys_of cs id = Some ks -> keys_of cs' id = Some ks) ->
  justified st0 cs pre e -> justified st0 cs' pre e.
Proof.
  intros K. destruct e as [id c|id a|id [res|err]]; simpl; try done.
  - intros (keys & H & ?). exists keys. split; [by apply K|done].
  - intros (keys & H & ?). exists keys. split; [by apply K|done].
Qed.

Lemma Justified_keys (st0 : State) (cs cs' : list Call) (tr : list Event) :
  (forall id ks, keys_of cs id = Some ks -> keys_of cs' id = Some ks) ->
  Justified st0 cs tr -> Justified st0 cs' tr.
Proof.
  intros K. induction 1 as [|tr e _ IH J]; constructor; [done|].
  by apply (justified_keys st0 cs).
Qed.

Lemma Justified_split (st0 : State) (cs : list Call) (tr : list Event) :
  Justified st0 cs tr ->
  forall pre e post, tr = pre ++ e :: post -> justified st0 cs pre e.
Proof.
  induction 1 as [|tr e0 _ IH J]; intros pre e post E.
  - by destruct pre.
  - induction post as [|x post' _] using rev_ind.
    + apply app_inj_tail in E as [-> ->]. done.
    + change (pre ++ e :: post' ++ [x]) with (pre ++ (e :: post') ++ [x]) in E.
      rewrite app_assoc in E. apply app_inj_tail in E as [-> _].
      by apply (IH pre e post').
Qed.

Lemma keys_of_app (cs : list Call) (c : Call) (id : nat) (ks : list string) :
  keys_of cs id = Some ks -> keys_of (cs ++ [c]) id = Some ks.
Proof.
  unfold keys_of. destruct (cs !! id) as [c0|] eqn:E; [|done].
  by rewrite (lookup_app_l_Some _ _ _ _ E).
Qed.

Lemma keys_of_insert (cs : list Call) (id id' : nat) (c c' : Call) :
  cs !! id = Some c -> call_keys c' = call_keys c ->
  keys_of (<[id := c']> cs) id' = keys_of cs id'.
Proof.
  intros H K. unfold keys_of. destruct (decide (id' = id)) as [->|N].
  - rewrite list_lookup_insert_eq by (by eapply lookup_lt_Some).
    rewrite H. simpl. by rewrite K.
  - by rewrite list_lookup_insert_ne.
Qed.


Lemma events_of_own (id : nat) (evs : list Event) :
  Forall (fun e => event_id e = id) evs -> events_of id evs = evs.
Proof.
  induction 1 as [|e evs E _ IH]; [done|]. unfold events_of in *. simpl.
  rewrite E, Nat.eqb_refl. by rewrite IH.
Qed.

Lemma events_of_foreign (id id0 : nat) (evs : list Event) :
  Forall (fun e => event_id e = id) evs -> id0 <> id ->
  events_of id0 evs = [] /\ received_by id0 evs = [].
Proof.
  intros F N. induction F as [|e evs E _ [IH1 IH2]]; [done|].
  unfold events_of, received_by in *. simpl.
  assert (Nat.eqb (event_id e) id0 = false) as B by (apply Nat.eqb_neq; lia).
  rewrite B, IH1. split; [done|].
  destruct e as [i c|i a|i r]; simpl in *; [done| |done].
  by rewrite B.
Qed.

Lemma events_of_fresh (n : nat) (tr : list Event) :
  Forall (fun e => (event_id e < n)%nat) tr ->
  events_of n tr = [] /\ received_by n tr = [].
Proof.
  induction 1 as [|e tr E _ [IH1 IH2]]; [done|].
  unfold events_of, received_by in *. simpl.
  assert (Nat.eqb (event_id e) n = false) as B by (apply Nat.eqb_neq; lia).
  rewrite B, IH1. split; [done|].
  destruct e as [i c|i a|i r]; simpl in *; [done| |done].
  by rewrite B.
Qed.

Lemma phase_agrees_other (tr evs : list Event) (id id0 : nat) (c : Call) :
  Forall (fun e => event_id e = id) evs -> id0 <> id ->
  phase_agrees tr id0 c -> phase_agrees (tr ++ evs) id0 c.
Proof.
  intros F N. destruct (events_of_foreign id id0 evs F N) as [E R].
  unfold phase_agrees. rewrite events_of_app, received_by_app, E, R.
  by rewrite !app_nil_r.
Qed.

Lemma test_cases (id : nat) (keys : list string) (st : State) :
  (gt (Math_max (map parseInt keys)) (latestEpoch st) = true
   /\ test id keys st = (Awaiting (epochCursor st), Sent id (epochCursor st)))
  \/ (gt (Math_max (map parseInt keys)) (latestEpoch st) = false
      /\ test id keys st = (Finished (Resolved (lookup_keys st keys)),
                            Ended id (Resolved (lookup_keys st keys)))).
Proof. unfold test. destruct (gt _ _); [left|right]; done. Qed.

Lemma settled_run_snoc (tr : list Event) (e : Event) :
  (forall i a, e <> Received i a) -> settled_run (tr ++ [e]).
Proof. intros H i a. rewrite last_snoc. intros [= E]. by apply (H i a). Qed.

Lemma Inv_idle (st0 : State) : Inv st0 (idle st0).
Proof.
  split; simpl.
  - by rewrite state_at_nil.
  - constructor.
  - intros id c H. by rewrite lookup_nil in H.
  - intros i a. done.
  - constructor.
Qed.

Lemma Inv_invoke (st0 : State) (keys : list string) (w : World) :
  Inv st0 w -> Inv st0 (invoke keys w).
Proof.
  intros [Hs Hj Hp Hl Hi]. unfold invoke.
  destruct (events_of_fresh _ _ Hi) as [Ev Rv].
  assert (keys_of (calls w ++ [{| call_keys := keys;
                                  call_phase := (test (length (calls w)) keys (shared w)).1 |}])
            (length (calls w)) = Some keys) as K.
  { unfold keys_of. by rewrite list_lookup_middle. }
  assert (forall ev, event_id ev = length (calls w) ->
            (forall i a, ev <> Received i a) ->
            justified st0 (calls w ++ [{| call_keys := keys;
                                  call_phase := (test (length (calls w)) keys (shared w)).1 |}])
              (trace w) ev ->
            phase_agrees (trace w ++ [ev]) (length (calls w))
              {| call_keys := keys;
                 call_phase := (test (length (calls w)) keys (shared w)).1 |} ->
            Inv st0 {| shared := shared w;
                       calls := calls w ++ [{| call_keys := keys;
                                  call_phase := (test (length (calls w)) keys (shared w)).1 |}];
                       trace := trace w ++ [ev] |}) as Close.
  { intros ev Eid NR J P. split; simpl.
    - rewrite state_at_other; [done|]. destruct ev as [| i a|]; try done.
      by destruct (NR i a).
    - constructor; [|done]. eapply Justified_keys; [|exact Hj].
      intros id ks. apply keys_of_app.
    - intros id c H. apply lookup_app_Some in H as [H|[Hlen H]].
      + apply (phase_agrees_other _ [ev] (length (calls w))).
        * by constructor.
        * apply lookup_lt_Some in H. lia.
        * by apply Hp.
      + destruct (id - length (calls w))%nat as [|k] eqn:D; [|by destruct k].
        simpl in H. injection H as <-.
        replace id with (length (calls w)) by lia. done.
    - by apply settled_run_snoc.
    - apply Forall_app. split.
      + eapply Forall_impl; [exact Hi|]. intros e. simpl. rewrite length_app. lia.
      + constructor; [|constructor]. rewrite length_app, Eid. simpl. lia. }
  destruct (test_cases (length (calls w)) keys (shared w)) as [[G T]|[G T]];
    rewrite T in *; simpl in *.
  - apply Close; try done.
    + exists keys. rewrite <- Hs. repeat split; try done.
      * rewrite Rv. constructor.
      * left. split; done.
    + unfold phase_agrees. simpl. rewrite events_of_app, received_by_app, Ev, Rv.
      unfold events_of. simpl. rewrite Nat.eqb_refl. simpl. split; [done|constructor].
  - apply Close; try done.
    + exists keys. rewrite <- Hs. repeat split; try done.
      * by left.
      * left. split; done.
    + unfold phase_agrees. simpl. rewrite events_of_app, Ev.
      unfold events_of. simpl. by rewrite Nat.eqb_refl.
Qed.


Lemma received_by_answer (id : nat) (tr : list Event)
    (a : Settled (Page EpochInfo)) :
  received_by id (tr ++ [Received id a]) = received_by id tr ++ [a].
Proof.
  rewrite received_by_app. unfold received_by at 2. simpl.
  by rewrite Nat.eqb_refl.
Qed.

(** The run of call [id] from the arrival of [answer] to the event [ev]
    that closes the run. *)
Lemma Inv_answer (st0 : State) (w : World) (id : nat) (keys : list string)
    (c : option string) (answer : Settled (Page EpochInfo)) (ph : Phase)
    (ev : Event) :
  Inv st0 w ->
  calls w !! id = Some {| call_keys := keys; call_phase := Awaiting c |} ->
  match ph with
  | Awaiting c' => ev = Sent id c' /\ announces answer
  | Finished r => ev = Ended id r
  end ->
  (forall cs', keys_of cs' id = Some keys ->
               justified st0 cs' (trace w ++ [Received id answer]) ev) ->
  Inv st0 {| shared := state_at st0 (trace w ++ [Received id answer]);
             calls := <[id := {| call_keys := keys; call_phase := ph |}]> (calls w);
             trace := trace w ++ [Received id answer; ev] |}.
Proof.
  intros [Hs Hj Hp Hl Hi] L P J.
  pose proof (Hp id _ L) as [Sd An]. simpl in Sd, An.
  assert (event_id ev = id /\ page_in ev = None
          /\ forall i a, ev <> Received i a) as (Eid & Pg & NR).
  { destruct ph as [c'|r]; [destruct P as [-> _]|subst ev]; done. }
  assert (trace w ++ [Received id answer; ev]
          = (trace w ++ [Received id answer]) ++ [ev]) as Tr.
  { by rewrite <- app_assoc. }
  split; simpl.
  - rewrite Tr. by rewrite (state_at_other _ _ ev).
  - rewrite Tr. constructor; [constructor|].
    + eapply Justified_keys; [|exact Hj]. intros i ks.
      by rewrite (keys_of_insert _ id i _ _ L).
    + simpl. split; [by exists c|done].
    + apply J. rewrite (keys_of_insert _ id id _ _ L); [|done].
      unfold keys_of. by rewrite L.
  - intros id0 c0 L0. destruct (decide (id0 = id)) as [->|N].
    + rewrite list_lookup_insert_eq in L0 by (by eapply lookup_lt_Some).
      injection L0 as <-. unfold phase_agrees. simpl.
      rewrite Tr, events_of_app, received_by_app, received_by_answer.
      assert (events_of id [ev] = [ev]) as ->.
      { apply events_of_own. by constructor. }
      rewrite last_snoc. destruct ph as [c'|r].
      * destruct P as [-> A]. split; [done|].
        unfold received_by at 2. simpl. rewrite app_nil_r.
        apply Forall_app. split; [done|by constructor].
      * by subst ev.
    + rewrite list_lookup_insert_ne in L0 by done.
      apply (phase_agrees_other _ _ id); [|done|by apply Hp].
      constructor; [done|by constructor].
  - rewrite Tr. by apply settled_run_snoc.
  - rewrite length_insert. apply Forall_app. split; [done|].
    apply lookup_lt_Some in L. constructor; [done|].
    constructor; [by rewrite Eid|constructor].
Qed.

Lemma Inv_deliver (st0 : State) (id : nat) (answer : Settled (Page EpochInfo))
    (w w' : World) :
  Inv st0 w -> deliver id answer w = Some w' -> Inv st0 w'.
Proof.
  intros I. unfold deliver.
  destruct (calls w !! id) as [[keys [c|r]]|] eqn:L; try discriminate.
  pose proof (inv_shared _ _ I) as Hs.
  pose proof (inv_phase _ _ I id _ L) as [Sd An]. simpl in Sd, An.
  destruct answer as [page|err].
  - assert (absorb (shared w) page
            = state_at st0 (trace w ++ [Received id (Resolved page)])) as A.
    { by rewrite state_at_page, Hs. }
    rewrite A.
    assert (after_receipt id (trace w ++ [Received id (Resolved page)])) as AR.
    { exists (Resolved page). by rewrite last_snoc. }
    destruct (hasNextPage page) eqn:N.
    + destruct (test_cases id keys
                  (state_at st0 (trace w ++ [Received id (Resolved page)])))
        as [[G T]|[G T]]; rewrite T; intros [= <-];
        apply (Inv_answer st0 w id keys c); try done.
      * split; [done|]. by exists page.
      * intros cs' K. exists keys. repeat split; try done; [|by right].
        rewrite received_by_answer. apply Forall_app. split; [done|].
        constructor; [|constructor]. by exists page.
      * intros cs' K. exists keys. repeat split; try done; [by left|by right].
    + intros [= <-]. apply (Inv_answer st0 w id keys c); try done.
      intros cs' K. exists keys. repeat split; try done; [|by right].
      right. exists page. by rewrite received_by_answer, last_snoc.
  - intros [= <-].
    replace (shared w)
      with (state_at st0 (trace w ++ [Received id (Rejected err)])).
    + apply (Inv_answer st0 w id keys c); try done.
      intros cs' K. simpl. by rewrite last_snoc.
    + by rewrite state_at_other.
Qed.

Lemma Inv_run (st0 : State) (acts : list Action) (w w' : World) :
  Inv st0 w -> run acts w = Some w' -> Inv st0 w'.
Proof.
  revert w. induction acts as [|a acts IH]; intros w I; simpl.
  - by intros [= <-].
  - destruct a as [keys|id answer]; simpl.
    + apply IH. by apply Inv_invoke.
    + destruct (deliver id answer w) as [w1|] eqn:D; [|done].
      apply IH. by apply (Inv_deliver st0 id answer w).
Qed.


(** *** One call alone is the call taken in one piece *)

Lemma requests_of_app (id : nat) (tr tr' : list Event) :
  requests_of id (tr ++ tr') = requests_of id tr ++ requests_of id tr'.
Proof. apply omap_app. Qed.

Lemma requests_of_fresh (n : nat) (tr : list Event) :
  Forall (fun e => (event_id e < n)%nat) tr -> requests_of n tr = [].
Proof.
  induction 1 as [|e tr E _ IH]; [done|].
  change (requests_of n (e :: tr))
    with (match request_in n e with
          | Some y => y :: requests_of n tr
          | None => requests_of n tr
          end).
  rewrite IH. destruct e as [i c|i a|i r]; simpl in *; try done.
  assert (Nat.eqb i n = false) as -> by (apply Nat.eqb_neq; lia). done.
Qed.

Lemma scan_covered (up : Upstream) (fuel : nat) (max : number) (st : State) :
  gt max (latestEpoch st) = false ->
  scan up fuel max st = Some (st, ([], Resolved tt)).
Proof. intros H. destruct fuel; simpl; by rewrite H. Qed.

(** The settlement of [getEpochs] after its loop. *)
Definition finish (keys : list string) (st : State) (r : Settled unit)
  : Settled (list (Loaded EpochInfo)) :=
  match r with
  | Resolved _ => Resolved (lookup_keys st keys)
  | Rejected e => Rejected e
  end.

Lemma alone_scan (up : Upstream) (keys : list string) (id : nat) (fuel : nat) :
  forall w,
    calls w !! id = Some {| call_keys := keys;
                            call_phase := Awaiting (epochCursor (shared w)) |} ->
    gt (Math_max (map parseInt keys)) (latestEpoch (shared w)) = true ->
    alone up fuel id w ≫= outcome id
    = match scan up fuel (Math_max (map parseInt keys)) (shared w) with
      | Some (st', (l, r)) =>
          Some (st', (requests_of id (trace w) ++ tl l, finish keys st' r))
      | None => None
      end.
Proof.
  induction fuel as [|fuel IH]; intros w L G.
  - simpl. by rewrite L, G.
  - simpl. rewrite L, G. unfold deliver. rewrite L.
    assert (id < length (calls w))%nat as Lt by (by eapply lookup_lt_Some).
    destruct (getEpochs_rpc up (epochCursor (shared w))) as [page|err].
    + destruct (hasNextPage page).
      * destruct (test_cases id keys (absorb (shared w) page)) as [[G' T]|[G' T]];
          rewrite T.
        -- rewrite IH; simpl; [|by rewrite list_lookup_insert_eq|done].
           destruct (scan up fuel _ (absorb (shared w) page))
             as [[st' [l r]]|] eqn:E; [|done].
           destruct (scan_first_request _ _ _ _ _ _ _ G' E) as [rest ->].
           simpl. rewrite requests_of_app. unfold requests_of at 2. simpl.
           rewrite Nat.eqb_refl. simpl. by rewrite <- app_assoc.
        -- rewrite (scan_covered _ _ _ _ G'). destruct fuel; simpl;
             rewrite list_lookup_insert_eq by done; simpl;
             unfold outcome; simpl;
             rewrite list_lookup_insert_eq by done; simpl;
             by rewrite requests_of_app.
      * destruct fuel; simpl;
          rewrite list_lookup_insert_eq by done; simpl;
          unfold outcome; simpl;
          rewrite list_lookup_insert_eq by done; simpl;
          by rewrite requests_of_app.
    + destruct fuel; simpl;
        rewrite list_lookup_insert_eq by done; simpl;
        unfold outcome; simpl;
        rewrite list_lookup_insert_eq by done; simpl;
        by rewrite requests_of_app.
Qed.

(** A call that runs alone from its invocation to its settlement leaves
    what [getEpochs] taken in one piece leaves: the same variables, the same
    requests, the same settlement, with the same bound. *)
Lemma alone_getEpochs (up : Upstream) (fuel : nat) (keys : list string)
    (w : World) :
  Forall (fun e => (event_id e < length (calls w))%nat) (trace w) ->
  alone up fuel (length (calls w)) (invoke keys w) ≫= outcome (length (calls w))
  = getEpochs up fuel keys (shared w).
Proof.
  intros F. pose proof (requests_of_fresh _ _ F) as R.
  unfold invoke.
  destruct (test_cases (length (calls w)) keys (shared w)) as [[G T]|[G T]];
    rewrite T.
  - rewrite (alone_scan up keys); simpl; [|by rewrite list_lookup_middle|done].
    unfold getEpochs.
    destruct (scan up fuel _ (shared w)) as [[st' [l r]]|] eqn:E; [|done].
    destruct (scan_first_request _ _ _ _ _ _ _ G E) as [rest ->].
    rewrite requests_of_app, R. unfold requests_of. simpl.
    rewrite Nat.eqb_refl. simpl. by destruct r.
  - rewrite (getEpochs_covered _ _ _ _ G).
    destruct fuel; simpl; rewrite list_lookup_middle by done; simpl;
      unfold outcome; simpl; rewrite list_lookup_middle by done; simpl;
      by rewrite requests_of_app, R.
Qed.

(** *** The call returns once the requested epoch has been observed *)

Lemma seen_cons (w : number) (p : Page EpochInfo) (ps : list (Page EpochInfo)) :
  seen w (p :: ps)
  = seen (fold_left max2 (map (fun e => parseInt (epoch e)) (page_data p)) w) ps.
Proof. unfold seen. simpl. by rewrite map_app, fold_left_app. Qed.

Lemma scan_returns (up : Upstream) (max : number) (ps : list (Page EpochInfo)) :
  forall fuel st,
    served up (epochCursor st) ps ->
    (length ps <= fuel)%nat ->
    gt max (seen (latestEpoch st) ps) = false
    \/ (exists p, last ps = Some p /\ hasNextPage p = false) ->
    exists st' l, scan up fuel max st = Some (st', (l, Resolved tt)).
Proof.
  induction ps as [|p ps IH]; intros fuel st S Len H.
  - destruct H as [H|(p & H & _)]; [|done].
    exists st, []. by apply scan_covered.
  - destruct fuel as [|fuel]; simpl in Len; [lia|].
    destruct S as [Sp Sr]. simpl. rewrite Sp.
    destruct (gt max (latestEpoch st)); [|eauto].
    destruct (hasNextPage p) eqn:N; [|eauto].
    destruct (IH fuel (absorb st p)) as (st' & l & E).
    + by rewrite absorb_cursor.
    + lia.
    + destruct H as [H|(q & H & Hq)].
      * left. by rewrite absorb_latest, <- seen_cons.
      * right. exists q. split; [|done]. rewrite last_cons in H.
        destruct (last ps); [done|]. injection H as <-. congruence.
    + rewrite E. eauto.
Qed.


Lemma getEpochs_returns_observed (up : Upstream) (fuel : nat)
    (keys : list string) (st : State) (ps : list (Page EpochInfo)) :
  served up (epochCursor st) ps ->
  (length ps <= fuel)%nat ->
  gt (Math_max (map parseInt keys)) (seen (latestEpoch st) ps) = false
  \/ (exists p, last ps = Some p /\ hasNextPage p = false) ->
  exists st' l,
    getEpochs up fuel keys st = Some (st', (l, Resolved (lookup_keys st' keys))).
Proof.
  intros S Len H. unfold getEpochs.
  destruct (scan_returns up _ ps fuel st S Len H) as (st' & l & E).
  rewrite E. eauto.
Qed.

(** *** A settled call stays settled *)

Lemma events_of_first (id : nat) (post : list Event) :
  events_of id post <> [] ->
  exists p1 e p2,
    post = p1 ++ e :: p2 /\ event_id e = id /\ events_of id p1 = [].
Proof.
  induction post as [|x post IH]; [done|].
  destruct (Nat.eqb (event_id x) id) eqn:E.
  - intros _. exists [], x, post. apply Nat.eqb_eq in E. done.
  - intros H. unfold events_of in H. simpl in H. rewrite E in H.
    destruct (IH H) as (p1 & e & p2 & -> & Hid & Hp).
    exists (x :: p1), e, p2. repeat split; [done|].
    unfold events_of. simpl. by rewrite E.
Qed.

Lemma last_foreign (id : nat) (pre p1 : list Event) (x : Event) (e : Event) :
  event_id x = id -> (forall i a, x <> Received i a) ->
  events_of id p1 = [] ->
  last (pre ++ x :: p1) = Some e -> event_id e = id -> e = x.
Proof.
  intros Hx NR Hp. induction p1 as [|y p1 _] using rev_ind.
  - rewrite last_snoc. by intros [= <-].
  - change (pre ++ x :: p1 ++ [y]) with (pre ++ (x :: p1) ++ [y]).
    rewrite app_assoc, last_snoc. intros [= <-] He.
    rewrite events_of_app in Hp. apply app_eq_nil in Hp as [_ Hy].
    unfold events_of in Hy. simpl in Hy.
    rewrite He, Nat.eqb_refl in Hy. done.
Qed.

(** A call that has settled has no further event. *)
Lemma Justified_ended (st0 : State) (cs : list Call) (tr : list Event)
    (pre post : list Event) (id : nat) (r : Settled (list (Loaded EpochInfo))) :
  Justified st0 cs tr ->
  tr = pre ++ Ended id r :: post ->
  events_of id post = [].
Proof.
  intros J E.
  destruct (events_of id post) as [|e0 l0] eqn:Ev; [done|exfalso].
  destruct (events_of_first id post) as (p1 & e & p2 & -> & Hid & Hp).
  { by rewrite Ev. }
  assert (justified st0 cs (pre ++ Ended id r :: p1) e) as Je.
  { apply (Justified_split st0 cs tr J _ e p2).
    rewrite E. by rewrite <- app_assoc. }
  assert (events_of id (pre ++ Ended id r :: p1)
          = events_of id pre ++ [Ended id r]) as Eo.
  { change (pre ++ Ended id r :: p1) with (pre ++ [Ended id r] ++ p1).
    rewrite !events_of_app, Hp, app_nil_r. unfold events_of at 2. simpl.
    by rewrite Nat.eqb_refl. }
  assert (forall a, last (pre ++ Ended id r :: p1) <> Some (Received id a)) as NL.
  { intros a HL.
    by pose proof (last_foreign id pre p1 (Ended id r) _ eq_refl
                     ltac:(done) Hp HL eq_refl). }
  destruct e as [i c|i a|i [res|err]]; simpl in Hid; subst i; simpl in Je.
  - destruct Je as (keys & _ & _ & _ & _ & [[H _]|[a H]]).
    + rewrite Eo in H. by destruct (events_of id pre).
    + by apply (NL a).
  - destruct Je as [[c H] _]. rewrite Eo, last_snoc in H. done.
  - destruct Je as (keys & _ & _ & _ & [[H _]|[a H]]).
    + rewrite Eo in H. by destruct (events_of id pre).
    + by apply (NL a).
  - by apply (NL (Rejected err)).
Qed.

(** What the arrival of a page makes call [id] do. *)
Lemma deliver_page (st0 : State) (w : World) (id : nat) (keys : list string)
    (c : option string) (page : Page EpochInfo) :
  shared w = state_at st0 (trace w) ->
  calls w !! id = Some {| call_keys := keys; call_phase := Awaiting c |} ->
  let arrived := trace w ++ [Received id (Resolved page)] in
  let res := Resolved (lookup_keys (state_at st0 arrived) keys) in
  deliver id (Resolved page) w
  = if hasNextPage page
       && gt (Math_max (map parseInt keys))
             (seen (latestEpoch st0) (pages_of (trace w) ++ [page]))
    then Some {| shared := state_at st0 arrived;
                 calls := <[id := {| call_keys := keys;
                                     call_phase := Awaiting (nextCursor page) |}]>
                            (calls w);
                 trace := arrived ++ [Sent id (nextCursor page)] |}
    else Some {| shared := state_at st0 arrived;
                 calls := <[id := {| call_keys := keys;
                                     call_phase := Finished res |}]> (calls w);
                 trace := arrived ++ [Ended id res] |}.
Proof.
  intros Hs L arrived res. unfold deliver. rewrite L.
  assert (absorb (shared w) page = state_at st0 arrived) as ->.
  { unfold arrived. by rewrite state_at_page, Hs. }
  assert (latestEpoch (state_at st0 arrived)
          = seen (latestEpoch st0) (pages_of (trace w) ++ [page])) as Lt.
  { unfold arrived. simpl. by rewrite pages_of_app. }
  assert (epochCursor (state_at st0 arrived) = nextCursor page) as Cu.
  { unfold arrived. by rewrite state_at_page, absorb_cursor. }
  assert (forall ev, arrived ++ [ev]
                     = trace w ++ [Received id (Resolved page); ev]) as Tr.
  { intros ev. unfold arrived. by rewrite <- app_assoc. }
  rewrite !Tr. destruct (hasNextPage page); cbn [andb]; [|done].
  unfold test. rewrite Lt, Cu. by destruct (gt _ _).
Qed.

(** C6.  [getEpochs] fetches only while it needs to, and stops.  Whatever
    the upstream answers and however the calls in flight interleave:
    - the watermark is [Math.max] of its first value and of the epoch
      numbers of all records received, and every event of the trace is
      justified by the events before it: a request is sent only while the
      highest requested epoch number is above every epoch number received
      so far, with the [nextCursor] of the last page received (so never
      from the beginning once a page has arrived), and only after pages
      that announced a next one; a call returns the lookup of its keys once
      its highest key is no longer above the epoch numbers received or its
      last page announced no next one; and a call that has returned or
      thrown has no further event;
    - a call whose highest key is not above the watermark sends no request
      and returns at once, leaving the variables alone;
    - when a page arrives, the call that asked for it returns in the same
      run if the page announces no next one or the highest requested epoch
      number is no longer above the epoch numbers received, and sends
      exactly one more request, with the [nextCursor] of that page,
      otherwise;
    - a call that runs alone is [getEpochs] taken in one piece;
    - [getEpochs] returns as soon as the pages the upstream serves show
      the requested epoch or end. *)
Theorem getEpochs_fetches_while_needed :
  (forall (st0 : State) (acts : list Action) (w : World),
      run acts (idle st0) = Some w ->
      latestEpoch (shared w) = seen (latestEpoch st0) (pages_of (trace w))
      /\ (forall pre e post,
             trace w = pre ++ e :: post -> justified st0 (calls w) pre e)
      /\ (forall pre id r post,
             trace w = pre ++ Ended id r :: post -> events_of id post = []))
  /\ (forall (keys : list string) (w : World),
         gt (Math_max (map parseInt keys)) (latestEpoch (shared w)) = false ->
         invoke keys w
         = {| shared := shared w;
              calls := calls w
                       ++ [{| call_keys := keys;
                              call_phase :=
                                Finished (Resolved (lookup_keys (shared w) keys)) |}];
              trace := trace w
                       ++ [Ended (length (calls w))
                             (Resolved (lookup_keys (shared w) keys))] |})
  /\ (forall (st0 : State) (acts : list Action) (w : World) (id : nat)
             (keys : list string) (c : option string) (page : Page EpochInfo),
         run acts (idle st0) = Some w ->
         calls w !! id = Some {| call_keys := keys; call_phase := Awaiting c |} ->
         let arrived := trace w ++ [Received id (Resolved page)] in
         let res := Resolved (lookup_keys (state_at st0 arrived) keys) in
         deliver id (Resolved page) w
         = if hasNextPage page
              && gt (Math_max (map parseInt keys))
                    (seen (latestEpoch st0) (pages_of (trace w) ++ [page]))
           then Some {| shared := state_at st0 arrived;
                        calls := <[id := {| call_keys := keys;
                                            call_phase :=
                                              Awaiting (nextCursor page) |}]>
                                   (calls w);
                        trace := arrived ++ [Sent id (nextCursor page)] |}
           else Some {| shared := state_at st0 arrived;
                        calls := <[id := {| call_keys := keys;
                                            call_phase := Finished res |}]>
                                   (calls w);
                        trace := arrived ++ [Ended id res] |})
  /\ (forall (st0 : State) (acts : list Action) (w : World) (up : Upstream)
             (fuel : nat) (keys : list string),
         run acts (idle st0) = Some w ->
         alone up fuel (length (calls w)) (invoke keys w)
           ≫= outcome (length (calls w))
         = getEpochs up fuel keys (shared w))
  /\ (forall (up : Upstream) (fuel : nat) (keys : list string) (st : State)
             (ps : list (Page EpochInfo)),
         served up (epochCursor st) ps ->
         (length ps <= fuel)%nat ->
         gt (Math_max (map parseInt keys)) (seen (latestEpoch st) ps) = false
         \/ (exists p, last ps = Some p /\ hasNextPage p = false) ->
         exists st' l,
           getEpochs up fuel keys st
           = Some (st', (l, Resolved (lookup_keys st' keys)))).
Proof.
  split; [|split; [|split; [|split]]].
  - intros st0 acts w R.
    pose proof (Inv_run st0 acts _ w (Inv_idle st0) R) as I.
    split; [|split].
    + by rewrite (inv_shared _ _ I).
    + intros pre e post E.
      by apply (Justified_split st0 (calls w) (trace w) (inv_justified _ _ I)
                  pre e post).
    + intros pre id r post E.
      by apply (Justified_ended st0 (calls w) (trace w) pre post id r
                  (inv_justified _ _ I)).
  - intros keys w G. unfold invoke, test. by rewrite G.
  - intros st0 acts w id keys c page R L.
    pose proof (Inv_run st0 acts _ w (Inv_idle st0) R) as I.
    by apply (deliver_page st0 w id keys c page (inv_shared _ _ I)).
  - intros st0 acts w up fuel keys R.
    pose proof (Inv_run st0 acts _ w (Inv_idle st0) R) as I.
    apply alone_getEpochs. exact (inv_ids _ _ I).
  - intros up fuel keys st ps. apply getEpochs_returns_observed.
Qed.

(** X2.  Every page that arrives is appended whole to [allEpochs], in
    order of arrival and whichever call asked for it, and the cursor is the
    [nextCursor] of the page that arrived last: with calls in flight
    together, a page asked for twice is appended twice. *)
Theorem pages_appended_in_arrival_order (st0 : State) (acts : list Action)
    (w : World) :
  run acts (idle st0) = Some w ->
  allEpochs (shared w)
  = allEpochs st0 ++ concat (map page_data (pages_of (trace w)))
  /\ epochCursor (shared w)
     = cursor_after (epochCursor st0) (pages_of (trace w)).
Proof.
  intros R. pose proof (Inv_run st0 acts _ w (Inv_idle st0) R) as I.
  by rewrite (inv_shared _ _ I).
Qed.

End InterleavedFacts.

(* ===================================================================== *)
(** ** More about the loaders that call the upstream once per key *)
(* ===================================================================== *)

Module LoaderMore.
Import JS Schema LoaderFacts.

Lemma Promise_all_Forall2 {A} (ps : list (Settled A)) (l : list A) :
  Promise_all ps = Resolved l <-> Forall2 (fun p a => p = Resolved a) ps l.
Proof.
  split.
  - intros H. rewrite (Promise_all_resolved _ _ H).
    clear H. induction l; simpl; constructor; auto.
  - induction 1 as [|p a ps l -> _ IH]; simpl; [done|]. by rewrite IH.
Qed.

Lemma Promise_all_rejection {A} (ps : list (Settled A)) (e : string) :
  Promise_all ps = Rejected e -> In (Rejected e) ps.
Proof.
  induction ps as [|[a|e0] ps IH]; simpl; [discriminate| |].
  - destruct (Promise_all ps) as [l|e1]; [discriminate|].
    intros [= <-]. right. by apply IH.
  - intros [= <-]. by left.
Qed.

(** X13.  [Checkpoint.load] resolves exactly when every one of its
    [getCheckpoint] requests does, and then to their answers in key order
    (one per key, whatever digest the answer carries); it rejects exactly
    when the request of some key is refused, and then with the error of a
    refused key.  The nodes [NormalizedFunction.load] resolves to carry
    the keys as their ids, in order. *)
Theorem per_key_loaders (up : Upstream) (keys : list string) :
  (forall res,
      settled (Checkpoint_load up keys) = Resolved res
      <-> Forall2 (fun k c => getCheckpoint up k = Resolved c) keys res)
  /\ (forall e,
        settled (Checkpoint_load up keys) = Rejected e ->
        exists k, In k keys /\ getCheckpoint up k = Rejected e)
  /\ (forall k e,
        In k keys -> getCheckpoint up k = Rejected e ->
        exists e', settled (Checkpoint_load up keys) = Rejected e')
  /\ (forall res,
        settled (NormalizedFunction_load up keys) = Resolved res ->
        map fn_id res = keys).
Proof.
  split; [|split; [|split]].
  - intros res. unfold Checkpoint_load, all, settled. simpl.
    rewrite Promise_all_Forall2. clear.
    revert res. induction keys as [|k keys IH]; intros res; simpl.
    + split; inversion 1; constructor.
    + split; inversion 1; subst; constructor; auto; by apply IH.
  - intros e. unfold Checkpoint_load, all, settled. simpl.
    intros H. apply Promise_all_rejection in H.
    apply in_map_iff in H as (k & Hk & Hin). by exists k.
  - intros k e Hin Hk. unfold Checkpoint_load, all, settled. simpl.
    apply (Promise_all_rejected _ e). rewrite <- Hk.
    by apply (in_map (fun x => getCheckpoint up x)).
  - intros res. unfold NormalizedFunction_load, all, settled. simpl.
    revert res. induction keys as [|k keys IH]; intros res; simpl.
    + by intros [= <-].
    + unfold call, bind, ret. simpl.
      destruct (getNormalizedMoveFunction up _ _ _) as [r|e]; simpl;
        [|discriminate].
      destruct (Promise_all _) as [l|e] eqn:E; [|discriminate].
      intros [= <-]. simpl. f_equal. by apply IH.
Qed.

End LoaderMore.

(* ===================================================================== *)
(** ** Facts about the field resolvers *)
(* ===================================================================== *)

Module FieldFacts.
Import JS Convert Schema Fields ConvertFacts EpochsFacts LoaderFacts.

(** *** Keys made of comma-separated parts *)

Definition no_comma (s : string) : bool :=
  all_chars (fun c => negb (Ascii.eqb c ",")) s.

Lemma split_comma_no_comma (s : string) : no_comma s = true -> split_comma s = [s].
Proof.
  induction s as [|c r IH]; simpl; [done|].
  intros [Hc Hr]%andb_prop. destruct (Ascii.eqb c ","); [discriminate|].
  by rewrite (IH Hr).
Qed.

Lemma split_comma_app (a b : string) :
  no_comma a = true -> split_comma (a +:+ "," +:+ b) = a :: split_comma b.
Proof.
  induction a as [|c r IH]; simpl; [done|].
  intros [Hc Hr]%andb_prop. destruct (Ascii.eqb c ","); [discriminate|].
  by rewrite (IH Hr).
Qed.

(** X6.  The id of a [MoveModule] node, used as a loader key, asks the
    upstream for the module's own address and name, provided neither holds
    a comma; when the upstream serves the module there, loading its id
    returns it. *)
Theorem MoveModule_id_round_trip (m : SuiMoveNormalizedModule) :
  no_comma (address m) = true ->
  no_comma (name m) = true ->
  MoveModule_request (MoveModule_id m)
  = GetNormalizedMoveModule (address m) (Some (name m))
  /\ forall up,
       getNormalizedMoveModule up (address m) (Some (name m)) = Resolved m ->
       MoveModule_load up [MoveModule_id m]
       = ([GetNormalizedMoveModule (address m) (Some (name m))], Resolved [m]).
Proof.
  intros Ha Hn.
  assert (E : split_comma (MoveModule_id m) = [address m; name m]).
  { unfold MoveModule_id. by rewrite split_comma_app, split_comma_no_comma. }
  split.
  - unfold MoveModule_request. by rewrite E.
  - intros up Hup. unfold MoveModule_load, all, call, bind, ret, issued, settled.
    simpl. rewrite E. simpl. by rewrite Hup.
Qed.

(** X7.  The key [MoveCallTransaction.function] builds asks the upstream
    for that package, module and function, provided none holds a comma;
    the node loaded for it carries the key as its id and names the
    package and module as its module id. *)
Theorem MoveCall_function_round_trip (tx : MoveCall) :
  no_comma (mc_package tx) = true ->
  no_comma (mc_module tx) = true ->
  no_comma (mc_function tx) = true ->
  let key := MoveCallTransaction_function tx in
  let request :=
    GetNormalizedMoveFunction (mc_package tx) (Some (mc_module tx))
      (Some (mc_function tx)) in
  NormalizedFunction_request key = request
  /\ forall up r,
       getNormalizedMoveFunction up (mc_package tx) (Some (mc_module tx))
         (Some (mc_function tx)) = Resolved r ->
       NormalizedFunction_load up [key]
       = ([request], Resolved [{| fn_result := r; fn_id := key |}])
       /\ NormalizedFunction_moduleId {| fn_result := r; fn_id := key |}
          = {| mid_package := mc_package tx; mid_name := Some (mc_module tx) |}.
Proof.
  intros Hp Hm Hf key request.
  assert (E : split_comma key = [mc_package tx; mc_module tx; mc_function tx]).
  { unfold key, MoveCallTransaction_function.
    by rewrite !split_comma_app, split_comma_no_comma. }
  split.
  - unfold NormalizedFunction_request. by rewrite E.
  - intros up r Hup. split.
    + unfold NormalizedFunction_load, all, call, bind, ret, issued, settled.
      simpl. rewrite E. simpl. by rewrite Hup.
    + unfold NormalizedFunction_moduleId. simpl. by rewrite E.
Qed.

(** *** The key of [Query.epoch] *)

(** X1.  [Query.epoch] with an [epochId] hands the loader a key that
    [getEpochs] reads back as that number, so the scan aims at it, and a
    record the loader answers with has that [epochId].  Without an
    [epochId] the key is the word undefined or null: nothing is fetched
    and the module variables stay as they are. *)
Theorem Query_epoch_key :
  (forall n, Math_max (map parseInt [Query_epoch (Given n)]) = Num n)
  /\ (forall n up fuel st st' l res e,
        Epochs.getEpochs up fuel [Query_epoch (Given n)] st
        = Some (st', (l, Resolved res)) ->
        res !! 0%nat = Some (Entity e) ->
        epoch e = String_of_int n /\ Epoch_epochId e = Num n)
  /\ (forall x up fuel st,
        x = Undefined \/ x = Null ->
        Epochs.getEpochs up fuel [Query_epoch x] st
        = Some (st, ([], Resolved (Epochs.lookup_keys st [Query_epoch x])))).
Proof.
  split; [|split].
  - intros n. unfold Query_epoch, Math_max. simpl.
    by rewrite parseInt_String_of_int.
  - intros n up fuel st st' l res e Hcall Hres.
    destruct (getEpochs_resolved _ _ _ _ _ _ _ Hcall) as [-> _].
    simpl in Hres. unfold find_or_error in Hres.
    destruct (find _ (Epochs.allEpochs st')) as [e'|] eqn:E; [|discriminate].
    injection Hres as ->.
    apply find_some in E as [_ E]. apply String.eqb_eq in E.
    unfold Epoch_epochId. rewrite E. split; [reflexivity|].
    apply parseInt_String_of_int.
  - intros x up fuel st [-> | ->]; by apply getEpochs_covered.
Qed.

(** *** Validators *)

Lemma totalStake_from_shift (sum : Z) (vs : list SuiValidatorSummary) :
  totalStake_from sum vs
  = match totalStake_from 0 vs with
    | Returned t => Returned (sum + t)
    | Thrown e => Thrown e
    end.
Proof.
  revert sum. induction vs as [|v vs IH]; intros sum; simpl.
  - f_equal; lia.
  - destruct (to_BigInt (pendingStake v)) as [z|e]; [|reflexivity].
    rewrite (IH (sum + z)), (IH (0 + z)).
    destruct (totalStake_from 0 vs); [|reflexivity]. f_equal; lia.
Qed.

(** X8.  [ValidatorSet.totalStake] is the sum of [BigInt(pendingStake)]
    over the validators: zero for none, additive over concatenation, and
    thrown away as a whole by the first pending stake that is no integer
    literal. *)
Theorem totalStake_sum :
  ValidatorSet_totalStake [] = Returned 0
  /\ (forall v, ValidatorSet_totalStake [v] = to_BigInt (pendingStake v))
  /\ (forall a b,
        ValidatorSet_totalStake (a ++ b)
        = match ValidatorSet_totalStake a with
          | Returned ta =>
              match ValidatorSet_totalStake b with
              | Returned tb => Returned (ta + tb)
              | Thrown e => Thrown e
              end
          | Thrown e => Thrown e
          end)
  /\ (forall a v b ta,
        ValidatorSet_totalStake a = Returned ta ->
        BigInt_of_string (pendingStake v) = None ->
        ValidatorSet_totalStake (a ++ v :: b)
        = Thrown ("Cannot convert " +:+ pendingStake v +:+ " to a BigInt")).
Proof.
  assert (Happ : forall a b,
             ValidatorSet_totalStake (a ++ b)
             = match ValidatorSet_totalStake a with
               | Returned ta =>
                   match ValidatorSet_totalStake b with
                   | Returned tb => Returned (ta + tb)
                   | Thrown e => Thrown e
                   end
               | Thrown e => Thrown e
               end).
  { unfold ValidatorSet_totalStake. intros a b.
    induction a as [|v a IH]; simpl.
    - by destruct (totalStake_from 0 b).
    - destruct (to_BigInt (pendingStake v)) as [z|e]; [|reflexivity].
      rewrite (totalStake_from_shift (0 + z) (a ++ b)), IH.
      rewrite (totalStake_from_shift (0 + z) a).
      destruct (totalStake_from 0 a) as [ta|e]; [|reflexivity].
      destruct (totalStake_from 0 b) as [tb|e]; [|reflexivity].
      f_equal; lia. }
  split; [reflexivity|]. split; [|split; [exact Happ|]].
  - intros v. unfold ValidatorSet_totalStake. simpl.
    destruct (to_BigInt (pendingStake v)); [|reflexivity]. f_equal; lia.
  - intros a v b ta Ha Hv. rewrite Happ, Ha.
    unfold ValidatorSet_totalStake. simpl. unfold to_BigInt. by rewrite Hv.
Qed.

(** A validator is listed for removal when its next-epoch stake is the
    empty string or an integer that is not positive. *)
Lemma has_next_stake_false (v : SuiValidatorSummary) :
  has_next_stake v = Returned false
  <-> nextEpochStake v = ""
      \/ exists z, BigInt_of_string (nextEpochStake v) = Some z /\ z <= 0.
Proof.
  unfold has_next_stake, to_BigInt.
  destruct (nextEpochStake v) as [|c r] eqn:E.
  - split; auto.
  - destruct (BigInt_of_string (String c r)) as [z|].
    + split.
      * intros [= H]. right. exists z. split; [reflexivity|lia].
      * intros [H | [z' [[= <-] Hz]]]; [discriminate|]. f_equal; lia.
    + split; [discriminate|]. intros [H | [z' [H _]]]; discriminate.
Qed.

Lemma pendingRemovals_from_spec (vs : list SuiValidatorSummary) (i : nat)
    (removals l : list nat) :
  pendingRemovals_from i removals vs = Returned l ->
  exists more,
    l = removals ++ more
    /\ (forall j, j ∈ more <->
          (i <= j)%nat
          /\ exists v, vs !! (j - i)%nat = Some v
                       /\ has_next_stake v = Returned false)
    /\ (forall a b x y, more !! a = Some x -> more !! b = Some y ->
          (a < b)%nat -> (x < y)%nat).
Proof.
  revert i removals l. induction vs as [|v vs IH]; intros i removals l; simpl.
  - intros [= <-]. exists []. split; [by rewrite app_nil_r|]. split.
    + intros j. split; [by intros ?%elem_of_nil|]. by intros [_ [v [? _]]].
    + intros a b x y H. discriminate.
  - destruct (has_next_stake v) as [[]|e] eqn:Hv; [| |discriminate].
    + intros H. destruct (IH _ _ _ H) as [more [-> [Hin Hsorted]]].
      exists more. split; [reflexivity|]. split; [|exact Hsorted].
      intros j. rewrite Hin. split.
      * intros [Hj [w [Hw Hf]]]. split; [lia|]. exists w. split; [|exact Hf].
        replace (j - i)%nat with (S (j - S i)) by lia. exact Hw.
      * intros [Hj [w [Hw Hf]]].
        destruct (j - i)%nat as [|k] eqn:Ek.
        -- simpl in Hw. injection Hw as <-. congruence.
        -- split; [lia|]. exists w. split; [|exact Hf].
           replace (j - S i)%nat with k by lia. exact Hw.
    + intros H. destruct (IH _ _ _ H) as [more [-> [Hin Hsorted]]].
      exists (i :: more). split; [by rewrite <- app_assoc|]. split.
      * intros j. rewrite elem_of_cons, Hin. split.
        -- intros [-> | [Hj [w [Hw Hf]]]].
           ++ split; [lia|]. exists v. by rewrite Nat.sub_diag.
           ++ split; [lia|]. exists w. split; [|exact Hf].
              replace (j - i)%nat with (S (j - S i)) by lia. exact Hw.
        -- intros [Hj [w [Hw Hf]]].
           destruct (j - i)%nat as [|k] eqn:Ek; [left; lia|].
           right. split; [lia|]. exists w. split; [|exact Hf].
           replace (j - S i)%nat with k by lia. exact Hw.
      * intros [|a] [|b] x y Ha Hb Hab; try lia; simpl in *.
        -- injection Ha as <-.
           assert (y ∈ more) as Hy by (eapply list_elem_of_lookup_2, Hb).
           apply Hin in Hy. lia.
        -- eapply Hsorted; eauto. lia.
Qed.

(** X9.  When [ValidatorSet.pendingRemovals] returns, it lists, in
    increasing order and once each, exactly the positions of the
    validators whose next-epoch stake is the empty string or an integer
    that is not positive; it returns whenever every non-empty next-epoch
    stake is an integer literal. *)
Theorem pendingRemovals_positions (vs : list SuiValidatorSummary) :
  (forall l,
      ValidatorSet_pendingRemovals vs = Returned l ->
      (forall j, j ∈ l <->
         exists v, vs !! j = Some v
                   /\ (nextEpochStake v = ""
                       \/ exists z, BigInt_of_string (nextEpochStake v) = Some z
                                    /\ z <= 0))
      /\ (forall a b x y, l !! a = Some x -> l !! b = Some y ->
            (a < b)%nat -> (x < y)%nat))
  /\ (Forall (fun v => nextEpochStake v = ""
                       \/ is_Some (BigInt_of_string (nextEpochStake v))) vs ->
      exists l, ValidatorSet_pendingRemovals vs = Returned l).
Proof.
  split.
  - intros l H. destruct (pendingRemovals_from_spec _ _ _ _ H) as [more [-> [Hin Hs]]].
    simpl. split; [|exact Hs].
    intros j. rewrite Hin, Nat.sub_0_r. setoid_rewrite has_next_stake_false.
    split; [by intros [_ ?] | intros ?; split; [lia | done]].
  - unfold ValidatorSet_pendingRemovals. generalize 0%nat (@nil nat).
    induction vs as [|v vs IH]; intros i removals Hall; simpl; [eauto|].
    apply Forall_cons in Hall as [Hv Hall].
    assert (exists b, has_next_stake v = Returned b) as [b ->].
    { unfold has_next_stake, to_BigInt.
      destruct Hv as [-> | [z Hz]]; [eauto|].
      destruct (nextEpochStake v); [eauto|]. rewrite Hz. eauto. }
    destruct b; by apply IH.
Qed.

(** *** Protocol configuration *)

Definition entry_of (kv : string * option ProtocolConfigValue)
  : option ProtocolConfigEntry :=
  match snd kv with
  | Some v => Some {| pc_key := fst kv; pc_value := first_value v |}
  | None => None
  end.

Lemma configs_no_key (attrs : list (string * option ProtocolConfigValue))
    (key : string) :
  key ∉ map fst attrs ->
  find (fun e => String.eqb (pc_key e) key) (omap entry_of attrs) = None.
Proof.
  induction attrs as [|[k [v|]] attrs IH]; simpl; [done| |].
  - intros [Hk Hrest]%not_elem_of_cons.
    destruct (String.eqb_spec k key) as [E|_]; [congruence | by apply IH].
  - intros [_ Hrest]%not_elem_of_cons. by apply IH.
Qed.

Lemma no_own_attribute (attrs : list (string * option ProtocolConfigValue))
    (key : string) :
  key ∉ map fst attrs ->
  find (fun kv => String.eqb (fst kv) key) attrs = None.
Proof.
  induction attrs as [|[k v] attrs IH]; simpl; [done|].
  intros [Hk Hrest]%not_elem_of_cons.
  destruct (String.eqb_spec k key) as [E|_]; [congruence | by apply IH].
Qed.

(** X10.  [ProtocolConfigs.config] and [ProtocolConfigs.configs] agree on
    every key that is not a property of [Object.prototype]: [config]
    answers with the entry [configs] lists under that key, and with
    nothing for a key that is absent or null.  For a key that the
    attributes lack and [Object.prototype] has, [config] answers with an
    entry whose value is the word undefined, which [configs] does not
    list. *)
Theorem config_agrees_with_configs (pc : ProtocolConfigResponse) (key : string) :
  NoDup (map fst (attributes pc)) ->
  (inherited key = false ->
   ProtocolConfigs_config pc key
   = find (fun e => String.eqb (pc_key e) key) (ProtocolConfigs_configs pc))
  /\ (inherited key = true ->
      key ∉ map fst (attributes pc) ->
      ProtocolConfigs_config pc key
      = Some {| pc_key := key; pc_value := "undefined" |}
      /\ find (fun e => String.eqb (pc_key e) key) (ProtocolConfigs_configs pc)
         = None).
Proof.
  unfold ProtocolConfigs_config, ProtocolConfigs_configs, own_attribute.
  fold entry_of. generalize (attributes pc). clear pc.
  intros attrs Hnd. split.
  - intros Hinh. rewrite Hinh.
    induction attrs as [|[k v] attrs IH]; simpl; [reflexivity|].
    apply NoDup_cons in Hnd as [Hk Hnd]. simpl in Hk.
    destruct (String.eqb_spec k key) as [->|Hne]; simpl.
    + destruct v as [v|]; simpl.
      * by rewrite String.eqb_refl.
      * by rewrite configs_no_key.
    + specialize (IH Hnd). destruct v as [v|]; simpl; [|exact IH].
      destruct (String.eqb_spec k key); [congruence | exact IH].
  - intros Hinh Habsent. rewrite Hinh, no_own_attribute by exact Habsent.
    split; [reflexivity | by apply configs_no_key].
Qed.

(** *** Transaction arguments *)

(** X11.  [mapTransactionArgument] loses nothing: two arguments mapped to
    the same node are the same argument, and a result without a nested
    index is told from a nested result by its absent [cmd]. *)
Theorem mapTransactionArgument_injective :
  (forall a b,
      mapTransactionArgument a = mapTransactionArgument b -> a = b)
  /\ (forall a x,
        mapTransactionArgument a = ResultNode x None <-> a = Result x)
  /\ (forall a x y,
        mapTransactionArgument a = ResultNode x (Some y) <-> a = NestedResult x y).
Proof.
  split; [|split].
  - intros [] []; simpl; congruence.
  - intros [] x; simpl; split; congruence.
  - intros [] x y; simpl; split; congruence.
Qed.

End FieldFacts.

(* ===================================================================== *)
(** ** Cursors of the edges the connection resolvers answer with *)
(* ===================================================================== *)

Module CursorFacts.
Import JS Relay Schema Convert ConvertFacts FieldFacts ConnectionFacts.

(** The edges the resolvers answer with, for any upstream and any
    connection arguments. *)
Definition checkpoint_edge (e : Edge Checkpoint) : Prop :=
  exists up args conn,
    (settled (checkpointConnection up args) = Resolved conn
     \/ exists ep, settled (Epoch_checkpointsConnection up ep args) = Resolved conn)
    /\ In e (edges conn).

Definition transactionBlock_edge (e : Edge TransactionBlock) : Prop :=
  exists up args conn,
    (settled (transactionBlockConnection up args) = Resolved conn
     \/ (exists cp,
           settled (Checkpoint_transactionsConnection up cp args) = Resolved conn)
     \/ (exists ep,
           settled (Epoch_transactionBlocksConnection up ep args) = Resolved conn)
     \/ (exists addr,
           settled (Address_transactionBlockConnection up addr args) = Resolved conn)
     \/ (exists obj,
           settled (receivedTransactionBlockConnection up obj args) = Resolved conn))
    /\ In e (edges conn).

Definition event_edge (e : Edge SuiEvent) : Prop :=
  exists up args conn,
    settled (eventConnection up args) = Resolved conn /\ In e (edges conn).

Lemma edge_cursor {N} (args : ConnectionArgs) (toCursor : N -> string)
    (resolve : ResolveCursorConnectionArgs -> Rpc (list N))
    (conn : Connection N) (e : Edge N) :
  settled (resolveCursorConnection args toCursor resolve) = Resolved conn ->
  In e (edges conn) -> cursor e = toCursor (node e).
Proof.
  intros H Hin.
  exact (proj1 (List.Forall_forall _ _)
           (resolveCursorConnection_cursors args toCursor resolve conn H) e Hin).
Qed.

Lemma checkpoint_edge_cursor (e : Edge Checkpoint) :
  checkpoint_edge e -> cursor e = sequenceNumber (node e).
Proof.
  intros (up & args & conn & [H|[ep H]] & Hin);
    exact (edge_cursor _ _ _ _ _ H Hin).
Qed.

Lemma transactionBlock_edge_cursor (e : Edge TransactionBlock) :
  transactionBlock_edge e -> cursor e = txb_digest (node e).
Proof.
  intros (up & args & conn & [H|[[x H]|[[x H]|[[x H]|[x H]]]]] & Hin);
    exact (edge_cursor _ _ _ _ _ H Hin).
Qed.

Lemma event_edge_cursor (e : Edge SuiEvent) :
  event_edge e ->
  cursor e = eventSeq (event_id (node e)) +:+ "," +:+ txDigest (event_id (node e)).
Proof.
  intros (up & args & conn & H & Hin). exact (edge_cursor _ _ _ _ _ H Hin).
Qed.

Lemma append_cancel (a b c : string) : a +:+ b = a +:+ c -> b = c.
Proof. induction a as [|x a IH]; simpl; [done|]. intros [= H]. by apply IH. Qed.

(** Two parts joined by a comma are read back when the first holds no
    comma. *)
Lemma comma_join_inj (a a' b b' : string) :
  no_comma a = true -> no_comma a' = true ->
  a +:+ "," +:+ b = a' +:+ "," +:+ b' -> a = a' /\ b = b'.
Proof.
  intros Ha Ha' E.
  assert (a = a') as <-.
  { pose proof (f_equal split_comma E) as S.
    rewrite (split_comma_app a b Ha), (split_comma_app a' b' Ha') in S.
    by injection S. }
  split; [done|]. apply append_cancel in E. by injection E.
Qed.

(** C8.  On the edges the resolvers answer with, whatever the upstream,
    the arguments, the page and the position in it:
    - two checkpoint edges, of [checkpointConnection] or
      [Epoch.checkpointsConnection], carry the same cursor exactly when
      their checkpoints have the same sequence number;
    - two transaction-block edges, of any of the five resolvers that list
      transaction blocks, carry the same cursor exactly when their
      transaction blocks have the same digest;
    - two event edges carry the same cursor when their events have the
      same id, and only then when the event sequences hold no comma; the
      cursor is then read back as the event sequence followed by the parts
      of the transaction digest. *)
Theorem cursor_stability :
  (forall e e' : Edge Checkpoint,
      checkpoint_edge e -> checkpoint_edge e' ->
      (cursor e = cursor e' <-> sequenceNumber (node e) = sequenceNumber (node e')))
  /\ (forall e e' : Edge TransactionBlock,
        transactionBlock_edge e -> transactionBlock_edge e' ->
        (cursor e = cursor e' <-> txb_digest (node e) = txb_digest (node e')))
  /\ (forall e e' : Edge SuiEvent,
        event_edge e -> event_edge e' ->
        (event_id (node e) = event_id (node e') -> cursor e = cursor e')
        /\ (no_comma (eventSeq (event_id (node e))) = true ->
            no_comma (eventSeq (event_id (node e'))) = true ->
            cursor e = cursor e' -> event_id (node e) = event_id (node e')))
  /\ (forall e : Edge SuiEvent,
        event_edge e ->
        no_comma (eventSeq (event_id (node e))) = true ->
        split_comma (cursor e)
        = eventSeq (event_id (node e))
          :: split_comma (txDigest (event_id (node e)))).
Proof.
  repeat split.
  - rewrite (checkpoint_edge_cursor e), (checkpoint_edge_cursor e'); done.
  - rewrite (checkpoint_edge_cursor e), (checkpoint_edge_cursor e'); done.
  - rewrite (transactionBlock_edge_cursor e), (transactionBlock_edge_cursor e');
      done.
  - rewrite (transactionBlock_edge_cursor e), (transactionBlock_edge_cursor e');
      done.
  - intros E. rewrite (event_edge_cursor e), (event_edge_cursor e') by done.
    by rewrite E.
  - intros N N' E.
    rewrite (event_edge_cursor e), (event_edge_cursor e') in E by done.
    destruct (comma_join_inj _ _ _ _ N N' E) as [E1 E2].
    destruct (event_id (node e)), (event_id (node e')). simpl in *. congruence.
  - intros e He N. rewrite (event_edge_cursor e He).
    by apply split_comma_app.
Qed.

End CursorFacts.

(* ===================================================================== *)
(** ** More about the [before] guard of the connection resolvers *)
(* ===================================================================== *)

Module ConnectionMore.
Import JS Relay Schema ConnectionFacts.

(** The arguments of [backward n c] without the [before] cursor. *)
Definition plain (n : option nat) : ConnectionArgs :=
  {| first := option_map Z.of_nat n; after := None; last := None; before := None |}.

Lemma parse_plain (n : option nat) :
  exists a,
    parseCursorArgs (plain n) = Resolved a
    /\ parseCursorArgs (backward n "")
       = Resolved {| rc_before := Some ""; rc_after := rc_after a;
                     inverted := inverted a; limit := limit a |}
    /\ rc_before a = None /\ rc_after a = None.
Proof.
  unfold parseCursorArgs, plain, backward. simpl.
  destruct n as [n|]; simpl; [|eauto].
  destruct (Z.ltb_spec (Z.of_nat n) 0) as [E|E]; [lia|]. eauto.
Qed.

(** The helper reads [before] through its truthiness and as the default
    of the cursors of an empty page. *)
Lemma resolveCursorConnection_empty_before {N} (n : option nat)
    (toCursor : N -> string)
    (resolve : ResolveCursorConnectionArgs -> Rpc (list N)) :
  (forall a, rc_before a = None ->
             resolve {| rc_before := Some ""; rc_after := rc_after a;
                        inverted := inverted a; limit := limit a |}
             = resolve a) ->
  resolveCursorConnection (backward n "") toCursor resolve
  = resolveCursorConnection (plain n) toCursor resolve.
Proof.
  intros H. destruct (parse_plain n) as (a & Hp & Hb & Hn & Ha).
  unfold resolveCursorConnection. rewrite Hp, Hb, (H a Hn).
  destruct a as [b af inv lim]. simpl in *. subst b af. reflexivity.
Qed.

(** X16.  The guard [if (before)] of the seven guarded resolvers tests
    truthiness: a non-empty [before] cursor makes them throw before any
    request is sent, and an empty one is let through, the resolver then
    sending the request and giving the answer it gives without [before]. *)
Theorem before_guard_tests_truthiness (up : Upstream) (n : option nat)
    (cp : Checkpoint) (ep : EpochInfo) (addr : string) :
  (forall c, c <> "" ->
     issued (checkpointConnection up (backward n c)) = []
     /\ issued (transactionBlockConnection up (backward n c)) = []
     /\ issued (eventConnection up (backward n c)) = []
     /\ issued (Checkpoint_transactionsConnection up cp (backward n c)) = []
     /\ issued (Epoch_checkpointsConnection up ep (backward n c)) = []
     /\ issued (Epoch_transactionBlocksConnection up ep (backward n c)) = []
     /\ issued (Address_transactionBlockConnection up addr (backward n c)) = [])
  /\ checkpointConnection up (backward n "") = checkpointConnection up (plain n)
  /\ transactionBlockConnection up (backward n "")
     = transactionBlockConnection up (plain n)
  /\ eventConnection up (backward n "") = eventConnection up (plain n)
  /\ Checkpoint_transactionsConnection up cp (backward n "")
     = Checkpoint_transactionsConnection up cp (plain n)
  /\ Epoch_checkpointsConnection up ep (backward n "")
     = Epoch_checkpointsConnection up ep (plain n)
  /\ Epoch_transactionBlocksConnection up ep (backward n "")
     = Epoch_transactionBlocksConnection up ep (plain n)
  /\ Address_transactionBlockConnection up addr (backward n "")
     = Address_transactionBlockConnection up addr (plain n).
Proof.
  split.
  - intros c Hc.
    destruct (guarded_resolvers_reject_before up n c cp ep addr Hc)
      as (H1 & H2 & H3 & H4 & H5 & H6 & H7).
    by rewrite H1, H2, H3, H4, H5, H6, H7.
  - repeat split; apply resolveCursorConnection_empty_before;
      intros [b af inv lim] Hb; simpl in Hb; subst b; reflexivity.
Qed.

End ConnectionMore.

(* ===================================================================== *)
(** ** The scenarios of the specification, and instances of the theorems *)
(* ===================================================================== *)

Module Scenarios.
Import JS Relay Schema Dataset Fixtures EpochsFacts LoaderFacts ConnectionFacts RoundTrip.

(** The module variables after a first request for epoch 1, and after a
    following request for epoch 7. *)
Definition after_1 : Epochs.State :=
  Eval vm_compute in
    match Epochs.getEpochs withEpochs 5 ["1"] Epochs.initial with
    | Some (st, _) => st
    | None => Epochs.initial
    end.

Definition after_7 : Epochs.State :=
  Eval vm_compute in
    match Epochs.getEpochs withEpochs 5 ["7"] after_1 with
    | Some (st, _) => st
    | None => after_1
    end.

(** Object ids A, B, C against a node that has A and C only. *)
Example Object_load_A_B_C :
  Object_load sample ["A"; "B"; "C"]
  = ([MultiGetObjects ["A"; "B"; "C"]],
     Resolved [Entity (mkObject "A");
               LoadError "Object B not found";
               Entity (mkObject "C")]).
Proof. reflexivity. Qed.

(** Repeated and permuted keys against an upstream that answers in
    reverse order. *)
Example TransactionBlock_load_C_B_A_C :
  settled (TransactionBlock_load sample ["C"; "B"; "A"; "C"])
  = Resolved [Entity (mkTxb "C");
              LoadError "TransactionBlock B not found";
              Entity (mkTxb "A");
              Entity (mkTxb "C")].
Proof. reflexivity. Qed.

(** Epochs 3 and 7 with nothing scanned yet: three pages are read, until
    epoch 8 is seen; a later request for epoch 1 reads nothing. *)
Example getEpochs_3_7_then_1 :
  exists st,
    Epochs.getEpochs withEpochs 3 ["3"; "7"] Epochs.initial
    = Some (st, ([GetEpochs None; GetEpochs (Some "2"); GetEpochs (Some "5")],
                 Resolved [Entity (mkEpoch "3"); Entity (mkEpoch "7")]))
    /\ Epochs.latestEpoch st = Num 8
    /\ Epochs.getEpochs withEpochs 0 ["1"] st
       = Some (st, ([], Resolved [Entity (mkEpoch "1")])).
Proof. eexists. split; [vm_compute; reflexivity|]. split; reflexivity. Qed.

(** Checkpoint ids A, B, C against a node that has A and C only: the
    batch rejects. *)
Lemma Checkpoint_load_A_B_C :
  In "B" ["A"; "B"; "C"]
  /\ getCheckpoint sample "B" = Rejected "Checkpoint not found"
  /\ issued (Checkpoint_load sample ["A"; "B"; "C"])
     = [GetCheckpoint "A"; GetCheckpoint "B"; GetCheckpoint "C"]
  /\ exists e, settled (Checkpoint_load sample ["A"; "B"; "C"]) = Rejected e.
Proof.
  split; [simpl; auto|]. split; [reflexivity|].
  apply (Checkpoint_load_missing_key_rejects_batch sample ["A"; "B"; "C"] "B"
           "Checkpoint not found").
  - simpl. auto.
  - reflexivity.
Defined.

(** Two checkpoint keys are two upstream requests, and two module keys
    too. *)
Lemma Checkpoint_load_two_requests :
  ~ (exists c, issued (Checkpoint_load sample ["A"; "C"]) = [c])
  /\ ~ (exists c, issued (MoveModule_load sample ["0x2,coin"; "0x2,sui"]) = [c]).
Proof. split; intros [c H]; vm_compute in H; discriminate. Qed.

(** The second page of events is the first page again, against an
    upstream that would honour a cursor. *)
Example eventConnection_second_page :
  page_of (eventConnection sample (forward 1 None))
  = Resolved ([{| cursor := "0,T0"; node := mkEvent "0" "T0" |}], true)
  /\ page_of (eventConnection sample (forward 1 (Some "0,T0")))
     = Resolved ([{| cursor := "0,T0"; node := mkEvent "0" "T0" |}], true)
  /\ page_data (pageOf Event_toCursor threeEvents (Some "0,T0") 1)
     = [mkEvent "1" "T0"].
Proof. repeat split; reflexivity. Qed.

(** Three transaction blocks read one per page come back in order; three
    events read one per page never come to an end. *)
Example paginate_three :
  paginate (transactionBlockConnection
              (serving [mkTxb "A"; mkTxb "B"; mkTxb "C"] [] threeEvents)) 4 1 None
  = Some [mkTxb "A"; mkTxb "B"; mkTxb "C"]
  /\ paginate (eventConnection
                 (serving [mkTxb "A"; mkTxb "B"; mkTxb "C"] [] threeEvents)) 9 1 None
     = None.
Proof. split; reflexivity. Qed.

(** With [first: 10] the checkpoint listing asks for descending order and
    the transaction-block listing for ascending order. *)
Lemma checkpoint_forward_is_descending :
  map direction_of (issued (checkpointConnection silent (forward 10 None)))
  <> [Some ascending]
  /\ map direction_of (issued (checkpointConnection silent (forward 10 None)))
     <> map direction_of (issued (transactionBlockConnection silent (forward 10 None))).
Proof. split; vm_compute; discriminate. Qed.

(** An empty [before] string is falsy: the guard lets it through. *)
Example checkpointConnection_empty_before :
  issued (checkpointConnection silent (backward None ""))
  = [GetCheckpoints {| descendingOrder := true; gc_limit := 21; gc_cursor := None |}].
Proof. reflexivity. Qed.

(** A later state of the accumulator, and what it kept. *)
Lemma accumulator_after_1_after_7 :
  later after_1 after_7
  /\ lt (Epochs.latestEpoch after_7) (Epochs.latestEpoch after_1) = false
  /\ exists more, Epochs.allEpochs after_7 = Epochs.allEpochs after_1 ++ more.
Proof.
  assert (H : later after_1 after_7).
  { eapply (later_call withEpochs 5 ["7"]); [vm_compute; reflexivity|].
    apply later_now. }
  split; [exact H|].
  pose proof (accumulator_only_grows after_1 after_7 H) as [Hm [_ [Hl _]]].
  split; [exact Hl | exact Hm].
Defined.

(** Keys 3 and x with nothing scanned: no page is read and epoch 3, which
    the upstream has, is answered by the error. *)
Lemma getEpochs_3_x :
  Epochs.getEpochs withEpochs 3 ["3"; "x"] Epochs.initial
  = Some (Epochs.initial,
          ([], Resolved [LoadError "Epoch not found"; LoadError "Epoch not found"])).
Proof.
  apply (getEpochs_unparsable_key withEpochs 3 ["3"; "x"] Epochs.initial).
  right. exists "x". split; [simpl; auto | reflexivity].
Defined.

End Scenarios.

(* ===================================================================== *)
(** ** Instances of the further theorems *)
(* ===================================================================== *)

Module MoreScenarios.
Import JS Relay Schema Dataset Fixtures Convert Fields.
Import EpochsFacts LoaderFacts ConnectionFacts RoundTrip.
Import ConvertFacts EpochsMore LoaderMore FieldFacts.
Import Interleaved InterleavedFacts CursorFacts.

(** An upstream that serves the first page of epochs and refuses the
    next request. *)
Definition flaky : Upstream :=
  {| getCheckpoint := getCheckpoint silent;
     getCheckpoints := getCheckpoints silent;
     queryTransactionBlocks := queryTransactionBlocks silent;
     queryEvents := queryEvents silent;
     multiGetTransactionBlocks := multiGetTransactionBlocks silent;
     multiGetObjects := multiGetObjects silent;
     getNormalizedMoveModule := getNormalizedMoveModule silent;
     getNormalizedMoveFunction := getNormalizedMoveFunction silent;
     getEpochs_rpc := fun c =>
       match c with
       | None => epochPages None
       | Some _ => Rejected "timeout"
       end |}.

(** An upstream whose first page holds a record named genesis. *)
Definition odd : Upstream :=
  {| getCheckpoint := getCheckpoint silent;
     getCheckpoints := getCheckpoints silent;
     queryTransactionBlocks := queryTransactionBlocks silent;
     queryEvents := queryEvents silent;
     multiGetTransactionBlocks := multiGetTransactionBlocks silent;
     multiGetObjects := multiGetObjects silent;
     getNormalizedMoveModule := getNormalizedMoveModule silent;
     getNormalizedMoveFunction := getNormalizedMoveFunction silent;
     getEpochs_rpc := fun c =>
       match c with
       | None =>
           Resolved {| page_data := [mkEpoch "0"; mkEpoch "genesis"];
                       nextCursor := Some "g"; hasNextPage := true |}
       | Some _ =>
           Resolved {| page_data := [mkEpoch "5"];
                       nextCursor := Some "5"; hasNextPage := false |}
       end |}.

(** The module variables after [odd] served its first page. *)
Definition after_genesis : Epochs.State :=
  {| Epochs.allEpochs := [mkEpoch "0"; mkEpoch "genesis"];
     Epochs.latestEpoch := NaN;
     Epochs.epochCursor := Some "g" |}.

(** Epoch 1 asked again after it was scanned: no request, same answer,
    even with the upstream down. *)
Lemma getEpochs_1_again :
  Epochs.getEpochs silent 0 ["1"] Scenarios.after_1
  = Some (Scenarios.after_1, ([], Resolved [Entity (mkEpoch "1")])).
Proof.
  exact (proj1 (getEpochs_again withEpochs 5 ["1"] Epochs.initial
                  Scenarios.after_1 [GetEpochs None] [Entity (mkEpoch "1")]
                  eq_refl)
               eq_refl silent 0%nat).
Defined.

(** Epoch 7 against [flaky]: the first page is kept, and the retry sends
    the refused request again. *)
Lemma getEpochs_7_flaky :
  getEpochs_rpc flaky (Some "2") = Rejected "timeout"
  /\ Epochs.getEpochs flaky 1 ["7"] Scenarios.after_1
     = Some (Scenarios.after_1, ([GetEpochs (Some "2")], Rejected "timeout")).
Proof.
  destruct (getEpochs_rejected_keeps_progress flaky 5 ["7"] Epochs.initial
              Scenarios.after_1 [GetEpochs None; GetEpochs (Some "2")]
              "timeout" eq_refl)
    as [_ [Hr Hn]].
  split; [exact Hr | exact (Hn 0%nat)].
Defined.

(** After the record named genesis no key is scanned for any more. *)
Lemma getEpochs_after_genesis :
  later Epochs.initial after_genesis
  /\ Epochs.getEpochs withEpochs 9 ["5"] after_genesis
     = Some (after_genesis, ([], Resolved [LoadError "Epoch not found"])).
Proof.
  assert (H : later Epochs.initial after_genesis).
  { eapply (later_call odd 5 ["5"]); [vm_compute; reflexivity|].
    apply later_now. }
  split; [exact H|].
  apply (proj2 (non_numeric_epoch_stops_scanning after_genesis H)).
  exists (mkEpoch "genesis"). split; [simpl; auto | reflexivity].
Defined.

(** The id of module 0x2::coin asks for 0x2 and coin. *)
Lemma MoveModule_id_coin :
  MoveModule_request (MoveModule_id {| address := "0x2"; name := "coin" |})
  = GetNormalizedMoveModule "0x2" (Some "coin").
Proof.
  exact (proj1 (MoveModule_id_round_trip {| address := "0x2"; name := "coin" |}
                  eq_refl eq_refl)).
Defined.

(** The key of the call 0x2::coin::mint asks for that function. *)
Lemma MoveCall_function_mint :
  NormalizedFunction_request
    (MoveCallTransaction_function
       {| mc_package := "0x2"; mc_module := "coin"; mc_function := "mint" |})
  = GetNormalizedMoveFunction "0x2" (Some "coin") (Some "mint").
Proof.
  exact (proj1 (MoveCall_function_round_trip
                  {| mc_package := "0x2"; mc_module := "coin";
                     mc_function := "mint" |}
                  eq_refl eq_refl eq_refl)).
Defined.

Definition sampleConfig : ProtocolConfigResponse :=
  {| protocolVersion := "12";
     attributes :=
       [("max_tx_size", Some {| pcv_type := "u64"; pcv_text := "128" |});
        ("feature_x", None)] |}.

(** One key present, one null, one inherited. *)
Lemma config_sample :
  ProtocolConfigs_config sampleConfig "max_tx_size"
  = Some {| pc_key := "max_tx_size"; pc_value := "128" |}
  /\ ProtocolConfigs_config sampleConfig "feature_x" = None
  /\ ProtocolConfigs_config sampleConfig "toString"
     = Some {| pc_key := "toString"; pc_value := "undefined" |}
  /\ ProtocolConfigs_configs sampleConfig
     = [{| pc_key := "max_tx_size"; pc_value := "128" |}].
Proof.
  assert (Hnd : NoDup (map fst (attributes sampleConfig))).
  { apply (bool_decide_unpack _). exact I. }
  pose proof (config_agrees_with_configs sampleConfig "max_tx_size" Hnd) as [H1 _].
  pose proof (config_agrees_with_configs sampleConfig "feature_x" Hnd) as [H2 _].
  split; [exact (H1 eq_refl)|]. split; [exact (H2 eq_refl)|].
  split; reflexivity.
Defined.

(** Three transaction blocks, two per page. *)
Lemma paginate_transactionBlocks_by_2 :
  paginate (transactionBlockConnection
              (serving [mkTxb "A"; mkTxb "B"; mkTxb "C"] [] [])) 4 2 None
  = Some [mkTxb "A"; mkTxb "B"; mkTxb "C"].
Proof.
  apply (transactionBlockConnection_round_trip
           [mkTxb "A"; mkTxb "B"; mkTxb "C"] [] [] 2).
  - apply (bool_decide_unpack _). exact I.
  - lia.
Defined.

(** Three checkpoints, two per page, come newest first. *)
Lemma paginate_checkpoints_by_2 :
  paginate (checkpointConnection
              (serving [] [mkCheckpoint "a" "1"; mkCheckpoint "b" "2";
                           mkCheckpoint "c" "3"] [])) 4 2 None
  = Some [mkCheckpoint "c" "3"; mkCheckpoint "b" "2"; mkCheckpoint "a" "1"].
Proof.
  apply (checkpointConnection_round_trip []
           [mkCheckpoint "a" "1"; mkCheckpoint "b" "2"; mkCheckpoint "c" "3"] [] 2).
  - apply (bool_decide_unpack _). exact I.
  - lia.
Defined.

(** Validators 0 and 2 leave: one has no next-epoch stake, one a stake of
    zero written in hexadecimal. *)
Example pendingRemovals_sample :
  ValidatorSet_pendingRemovals
    [{| suiAddress := "a"; pendingStake := "10"; nextEpochStake := "";
        votingPower := "1" |};
     {| suiAddress := "b"; pendingStake := " 5 "; nextEpochStake := "7";
        votingPower := "1" |};
     {| suiAddress := "c"; pendingStake := "0x10"; nextEpochStake := "0x0";
        votingPower := "1" |}]
  = Returned [0%nat; 2%nat]
  /\ ValidatorSet_totalStake
       [{| suiAddress := "a"; pendingStake := "10"; nextEpochStake := "";
           votingPower := "1" |};
        {| suiAddress := "b"; pendingStake := " 5 "; nextEpochStake := "7";
           votingPower := "1" |};
        {| suiAddress := "c"; pendingStake := "0x10"; nextEpochStake := "0x0";
           votingPower := "1" |}]
     = Returned 31
  /\ ValidatorSet_totalStake
       [{| suiAddress := "d"; pendingStake := "1.5"; nextEpochStake := "1";
           votingPower := "1" |}]
     = Thrown "Cannot convert 1.5 to a BigInt".
Proof. repeat split; reflexivity. Qed.

(** The first page of the nine epochs. *)
Definition page0 : Page EpochInfo :=
  {| page_data := map mkEpoch ["0"; "1"; "2"];
     nextCursor := Some "2"; hasNextPage := true |}.

(** Two calls for epoch 1 started together, before any page has arrived:
    both ask for the first page, then the answers arrive. *)
Definition together : list Action :=
  [Invoke ["1"]; Invoke ["1"];
   Deliver 0 (Resolved page0); Deliver 1 (Resolved page0)].

Definition together_end : World :=
  {| shared :=
       {| Epochs.allEpochs := map mkEpoch ["0"; "1"; "2"; "0"; "1"; "2"];
          Epochs.latestEpoch := Num 2;
          Epochs.epochCursor := Some "2" |};
     calls :=
       [{| call_keys := ["1"];
           call_phase := Finished (Resolved [Entity (mkEpoch "1")]) |};
        {| call_keys := ["1"];
           call_phase := Finished (Resolved [Entity (mkEpoch "1")]) |}];
     trace :=
       [Sent 0 None; Sent 1 None;
        Received 0 (Resolved page0); Ended 0 (Resolved [Entity (mkEpoch "1")]);
        Received 1 (Resolved page0); Ended 1 (Resolved [Entity (mkEpoch "1")])] |}.

(** The first page is appended twice. *)
Lemma getEpochs_1_twice_together :
  run together (idle Epochs.initial) = Some together_end
  /\ Epochs.allEpochs (shared together_end)
     = map mkEpoch ["0"; "1"; "2"; "0"; "1"; "2"]
  /\ Epochs.epochCursor (shared together_end) = Some "2".
Proof.
  split; [reflexivity|].
  exact (pages_appended_in_arrival_order Epochs.initial together together_end
           eq_refl).
Defined.

(** The first call returns in the run in which the first page arrives:
    epoch 2 has been received and 1 is not above it. *)
Lemma getEpochs_1_returns_after_first_page :
  run together (idle Epochs.initial) = Some together_end
  /\ Epochs.latestEpoch (shared together_end) = Num 2
  /\ justified Epochs.initial (calls together_end)
       [Sent 0 None; Sent 1 None; Received 0 (Resolved page0)]
       (Ended 0 (Resolved [Entity (mkEpoch "1")])).
Proof.
  split; [reflexivity|].
  destruct (proj1 getEpochs_fetches_while_needed Epochs.initial together
              together_end eq_refl) as [Hw [Hj _]].
  split; [exact Hw|].
  exact (Hj [Sent 0 None; Sent 1 None; Received 0 (Resolved page0)]
            (Ended 0 (Resolved [Entity (mkEpoch "1")]))
            [Received 1 (Resolved page0);
             Ended 1 (Resolved [Entity (mkEpoch "1")])]
            eq_refl).
Defined.

(** Epochs 3 and 7 asked by a call that runs alone, and by [getEpochs]
    taken in one piece. *)
Example getEpochs_3_7_alone :
  alone withEpochs 3 0 (invoke ["3"; "7"] (idle Epochs.initial)) ≫= outcome 0
  = Epochs.getEpochs withEpochs 3 ["3"; "7"] Epochs.initial.
Proof. vm_compute. reflexivity. Qed.

(** An answer for a call that waits for none is no step of a run. *)
Example deliver_to_settled_call :
  run (together ++ [Deliver 0 (Resolved page0)]) (idle Epochs.initial) = None.
Proof. reflexivity. Qed.

(** The cursor of the first event, on a page of one and on a page of
    three, and its two parts. *)
Lemma event_cursor_sample :
  event_edge {| cursor := "0,T0"; node := mkEvent "0" "T0" |}
  /\ page_of (eventConnection sample (forward 3 None))
     = Resolved ([{| cursor := "0,T0"; node := mkEvent "0" "T0" |};
                  {| cursor := "1,T0"; node := mkEvent "1" "T0" |};
                  {| cursor := "0,T1"; node := mkEvent "0" "T1" |}], false)
  /\ split_comma "0,T0" = ["0"; "T0"].
Proof.
  assert (He : event_edge {| cursor := "0,T0"; node := mkEvent "0" "T0" |}).
  { eexists sample, (forward 1 None), _.
    split; [vm_compute; reflexivity|]. left. reflexivity. }
  split; [exact He|]. split; [reflexivity|].
  exact (proj2 (proj2 (proj2 cursor_stability)) _ He eq_refl).
Defined.

End MoreScenarios.
